(** * Verification of crooks-fluctuation: Marsaglia's universal RNG and the
    per-pixel series evaluation and colour mapping (src/src/unirand.rs,
    src/src/main.rs).

    Floating-point values are modelled with the IEEE-754 specification of
    the Standard Library ([SpecFloat]), instantiated at binary32 for Rust's
    [f32] and at binary64 for Rust's [f64]; every arithmetic operation
    rounds to nearest-even exactly as the hardware does.  The transcendental
    library functions [sin], [cosh] and [powf] are not defined by the
    repository; they are parameters of the series model. *)

From Stdlib Require Import ZArith Lia List Bool.
From Stdlib Require Import Floats.SpecFloat.
Import ListNotations.

Open Scope Z_scope.

(** ** Rust [f32] and [f64] *)

Module F32.
Definition prec : Z := 24.
Definition emax : Z := 128.
Definition t := spec_float.
Definition add (x y : t) : t := SFadd prec emax x y.
Definition sub (x y : t) : t := SFsub prec emax x y.
Definition mul (x y : t) : t := SFmul prec emax x y.
Definition div (x y : t) : t := SFdiv prec emax x y.
Definition ltb (x y : t) : bool := SFltb x y.
Definition leb (x y : t) : bool := SFleb x y.
(** the literal [z * 2^e], rounded to the nearest [f32] *)
Definition lit (z e : Z) : t := binary_normalize prec emax z e false.
Definition zero : t := S754_zero false.   (* 0.0 *)
Definition one : t := lit 1 0.            (* 1.0 *)
Definition half : t := lit 1 (-1).        (* 0.5 *)
End F32.

Module F64.
Definition prec : Z := 53.
Definition emax : Z := 1024.
Definition t := spec_float.
Definition add (x y : t) : t := SFadd prec emax x y.
Definition sub (x y : t) : t := SFsub prec emax x y.
Definition mul (x y : t) : t := SFmul prec emax x y.
Definition div (x y : t) : t := SFdiv prec emax x y.
Definition abs (x : t) : t := SFabs x.
Definition lit (z e : Z) : t := binary_normalize prec emax z e false.
Definition zero : t := S754_zero false.
(** [std::f64::consts::PI] = 0x400921FB54442D18 *)
Definition PI : t := S754_finite false 7074237752028440 (-51).
(** [n as f64] for an integer [n] of at most 53 bits: exact *)
Definition of_nat (n : nat) : t := lit (Z.of_nat n) 0.
End F64.

(** ** The option monad: a Rust panic is [None] *)

Notation "'let*' x := c 'in' k" :=
  (match c with Some x => k | None => None end)
  (at level 200, x pattern, c at level 100, k at level 200).

(** ** [MarsagliaUniRng] (src/src/unirand.rs) *)

Module Uni.

Definition LEN_U : nat := 98.

(** A fixed-size array [[f32; LEN_U]]: its elements as a function of the
    index; indexing is bounds-checked and panics outside [0, LEN_U). *)
Definition array := nat -> F32.t.

Definition get (a : array) (i : nat) : option F32.t :=
  if Nat.ltb i LEN_U then Some (a i) else None.

Definition set (a : array) (i : nat) (v : F32.t) : option array :=
  if Nat.ltb i LEN_U
  then Some (fun j => if Nat.eqb j i then v else a j)
  else None.

Record rng := Rng {
  recent_values : array;
  correction : F32.t;
  correction_delta : F32.t;
  correction_modulus : F32.t;
  current_index : nat;
  second_index : nat
}.

Definition new : rng :=
  {| recent_values := fun _ => F32.zero;
     correction := F32.zero;
     correction_delta := F32.zero;
     correction_modulus := F32.zero;
     current_index := 0;
     second_index := 0 |}.

(** [if idx == 0 { idx = 97 } else { idx -= 1 }] *)
Definition step_index (idx : nat) : nat :=
  if Nat.eqb idx 0 then 97 else idx - 1.

Definition generate (g : rng) : option (rng * F32.t) :=
  let* x := get (recent_values g) (current_index g) in
  let* y := get (recent_values g) (second_index g) in
  let new_value := F32.sub x y in
  let new_value := if F32.ltb new_value F32.zero
                   then F32.add new_value F32.one else new_value in
  let* vals := set (recent_values g) (current_index g) new_value in
  let ci := step_index (current_index g) in
  let sc := step_index (second_index g) in
  let c := F32.sub (correction g) (correction_delta g) in
  let c := if F32.ltb c F32.zero then F32.add c (correction_modulus g) else c in
  let new_value := F32.sub new_value c in
  let new_value := if F32.ltb new_value F32.zero
                   then F32.add new_value F32.one else new_value in
  Some ({| recent_values := vals;
           correction := c;
           correction_delta := correction_delta g;
           correction_modulus := correction_modulus g;
           current_index := ci;
           second_index := sc |}, new_value).

(** The [i32] seeds of [start]; [%] on [i32] is the truncating remainder. *)
Record seeds := Seeds { si : Z; sj : Z; sk : Z; sl : Z }.

(** Rust's [i32] [*] and [+] as a release build runs them: the exact
    result wrapped to [-2^31, 2^31) (two's complement).  A debug build
    panics on overflow instead; the two builds agree wherever no operation
    overflows. *)
Definition wrap_i32 (z : Z) : Z := (z + 2147483648) mod 4294967296 - 2147483648.

(** the values an [i32] holds *)
Definition in_i32 (z : Z) : Prop := -2147483648 <= z <= 2147483647.

(** One round of the inner loop [for _jj in 1..=24]:
    [m = ((i * j % 179) * k) % 179], [l = (53 * l + 1) % 169],
    [if l * m % 64 >= 32 { s += t }], [t *= 0.5]. *)
Definition start_round (st : seeds * F32.t * F32.t) : seeds * F32.t * F32.t :=
  let '(q, s, t) := st in
  let m := Z.rem (wrap_i32 (Z.rem (wrap_i32 (si q * sj q)) 179 * sk q)) 179 in
  let l := Z.rem (wrap_i32 (wrap_i32 (53 * sl q) + 1)) 169 in
  let s := if Z.leb 32 (Z.rem (wrap_i32 (l * m)) 64) then F32.add s t else s in
  (Seeds (sj q) (sk q) m l, s, F32.mul t F32.half).

Fixpoint start_rounds (n : nat) (st : seeds * F32.t * F32.t) :=
  match n with
  | O => st
  | S n' => start_rounds n' (start_round st)
  end.

(** The body of [for ii in 1..=97]: fills slot [ii]. *)
Definition start_slot (q : seeds) : seeds * F32.t :=
  let '(q', s, _) := start_rounds 24 (q, F32.zero, F32.half) in (q', s).

Fixpoint start_fill (ii : nat) (n : nat) (q : seeds) (a : array)
  : option array :=
  match n with
  | O => Some a
  | S n' =>
      let '(q', s) := start_slot q in
      let* a' := set a ii s in
      start_fill (S ii) n' q' a'
  end.

Definition start (g : rng) (seed1 seed2 seed3 seed4 : Z) : option rng :=
  let* vals := start_fill 1 97 (Seeds seed1 seed2 seed3 seed4)
                          (recent_values g) in
  Some {| recent_values := vals;
          correction := F32.div (F32.lit 362436 0) (F32.lit 16777216 0);
          correction_delta := F32.div (F32.lit 7654321 0) (F32.lit 16777216 0);
          correction_modulus := F32.div (F32.lit 16777213 0) (F32.lit 16777216 0);
          current_index := 97;
          second_index := 33 |}.

(** The sub-seeds of [initialise]; [/] and [%] on [i32] truncate. *)
Definition decompose (seed : Z) : Z * Z * Z * Z :=
  let ij := Z.quot seed 30082 in
  let kl := seed - 30082 * ij in
  let i := Z.rem (Z.quot ij 177) 177 + 2 in
  let j := Z.rem ij 177 + 2 in
  let k := Z.rem (Z.quot kl 169) 178 + 1 in
  let l := Z.rem kl 169 in
  (i, j, k, l).

Definition initialise (g : rng) (seed : Z) : option rng :=
  if (seed <? 0) || (900000000 <? seed) then None else
  let '(i, j, k, l) := decompose seed in
  if (i <=? 0) || (178 <? i) then None else
  if (j <=? 0) || (178 <? j) then None else
  if (k <=? 0) || (178 <? k) then None else
  if (l <? 0) || (168 <? l) then None else
  if (i =? 1) && (j =? 1) && (k =? 1) then None else
  start g i j k l.

(** [n] consecutive calls of [generate]: the values drawn, in order. *)
Fixpoint draws (n : nat) (g : rng) : option (list F32.t) :=
  match n with
  | O => Some []
  | S n' =>
      let* (g', v) := generate g in
      let* vs := draws n' g' in
      Some (v :: vs)
  end.

(** The states a program reaches: [new()] then a successful [initialise],
    then any number of [generate()] calls. *)
Inductive reachable : rng -> Prop :=
  | reachable_init (seed : Z) (g : rng) :
      initialise new seed = Some g -> reachable g
  | reachable_step (g g' : rng) (v : F32.t) :
      reachable g -> generate g = Some (g', v) -> reachable g'.

End Uni.

(** ** The reference generator of the spec (section 4.2), for claim C1

    The spec's words: a circular buffer of 97 values (indices 0..96) filled
    slot by slot by the same bit-extraction procedure, the cursors fixed to
    96 and 32, and each draw decrementing both cursors modulo 97 (wrapping
    0 to 96).  Arithmetic is [f32], as in the code. *)
Module Golden.

Record gen := Gen {
  buf : list F32.t;          (* 97 slots *)
  corr : F32.t;
  corr_delta : F32.t;
  corr_modulus : F32.t;
  cur : nat;
  sec : nat
}.

Fixpoint fill (n : nat) (q : Uni.seeds) : list F32.t :=
  match n with
  | O => []
  | S n' => let '(q', s) := Uni.start_slot q in s :: fill n' q'
  end.

Definition dec97 (idx : nat) : nat := (idx + 96) mod 97.

Definition init (seed : Z) : gen :=
  let '(i, j, k, l) := Uni.decompose seed in
  {| buf := fill 97 (Uni.Seeds i j k l);
     corr := F32.div (F32.lit 362436 0) (F32.lit 16777216 0);
     corr_delta := F32.div (F32.lit 7654321 0) (F32.lit 16777216 0);
     corr_modulus := F32.div (F32.lit 16777213 0) (F32.lit 16777216 0);
     cur := 96;
     sec := 32 |}.

Definition wrap (v : F32.t) : F32.t :=
  if F32.ltb v F32.zero then F32.add v F32.one else v.

Definition next (g : gen) : gen * F32.t :=
  let v := wrap (F32.sub (nth (cur g) (buf g) F32.zero)
                         (nth (sec g) (buf g) F32.zero)) in
  let c := F32.sub (corr g) (corr_delta g) in
  let c := if F32.ltb c F32.zero then F32.add c (corr_modulus g) else c in
  ({| buf := firstn (cur g) (buf g) ++ v :: skipn (S (cur g)) (buf g);
      corr := c; corr_delta := corr_delta g; corr_modulus := corr_modulus g;
      cur := dec97 (cur g); sec := dec97 (sec g) |},
   wrap (F32.sub v c)).

Fixpoint seq_from (n : nat) (g : gen) : list F32.t :=
  match n with
  | O => []
  | S n' => let '(g', v) := next g in v :: seq_from n' g'
  end.

(** the golden vector: the first 97 values for seed 12345 *)
Definition golden_12345 : list F32.t := seq_from 97 (init 12345).

End Golden.

(** ** The grid of multiples of 2^-24, and the generator invariant

    [grid x a]: the [f32] [x] is the value [a * 2^-24], in the canonical
    normal form that rounding produces (24-bit mantissa, exponent at least
    -48).  Every value the generator handles lies on this grid. *)

Module Grid.

Definition grid (x : F32.t) (a : Z) : Prop :=
  match x with
  | S754_zero _ => a = 0
  | S754_finite s m e =>
      Zpos (digits2_pos m) = 24 /\ -48 <= e /\
      cond_Zopp s (Zpos m) * 2 ^ (e + 48) = a * 2 ^ 24
  | _ => False
  end.

(** a checker for the grid property of concrete values *)
Definition gridb (x : F32.t) (a : Z) : bool :=
  match x with
  | S754_zero _ => Z.eqb a 0
  | S754_finite s m e =>
      Z.eqb (Zpos (digits2_pos m)) 24 && Z.leb (-48) e &&
      Z.eqb (cond_Zopp s (Zpos m) * 2 ^ (e + 48)) (a * 2 ^ 24)
  | _ => false
  end.

Definition slot_ok (x : F32.t) : Prop := exists a, grid x a /\ 0 <= a < 2 ^ 24.

(** the value of [t] after [n] halvings *)
Definition tval (n : nat) : F32.t :=
  Nat.iter n (fun t => F32.mul t F32.half) F32.half.

Definition c_init : F32.t := F32.div (F32.lit 362436 0) (F32.lit 16777216 0).
Definition c_delta : F32.t := F32.div (F32.lit 7654321 0) (F32.lit 16777216 0).
Definition c_modulus : F32.t := F32.div (F32.lit 16777213 0) (F32.lit 16777216 0).

(** The invariant of every reachable state: all 98 slots and the
    correction hold grid values in [0, 1), the two constants are those of
    [start], and both cursors index the array. *)
Record inv (g : Uni.rng) : Prop := {
  inv_slots : forall i, (i < 98)%nat -> slot_ok (Uni.recent_values g i);
  inv_corr : slot_ok (Uni.correction g);
  inv_delta : Uni.correction_delta g = c_delta;
  inv_modulus : Uni.correction_modulus g = c_modulus;
  inv_cur : (Uni.current_index g < 98)%nat;
  inv_sec : (Uni.second_index g < 98)%nat
}.

(** Two generators agree on everything [generate] reads. *)
Definition same_state (g h : Uni.rng) : Prop :=
  (forall i, (i < 98)%nat -> Uni.recent_values g i = Uni.recent_values h i) /\
  Uni.correction g = Uni.correction h /\
  Uni.correction_delta g = Uni.correction_delta h /\
  Uni.correction_modulus g = Uni.correction_modulus h /\
  Uni.current_index g = Uni.current_index h /\
  Uni.second_index g = Uni.second_index h.

End Grid.

(** ** The series of [crooks_fluctuation_theorem] (src/src/main.rs) *)

Module Series.
Section Libm.

(** Rust's [f64::sin], [f64::cosh] and [f64::powf]: the platform's libm,
    taken as given functions on [f64]. *)
Variables (sin cosh : F64.t -> F64.t) (powf : F64.t -> F64.t -> F64.t).

Definition two : F64.t := F64.lit 2 0.

(** [2.0 * PI * i as f64 + time] *)
Definition arg (i : nat) (time : F64.t) : F64.t :=
  F64.add (F64.mul (F64.mul two F64.PI) (F64.of_nat i)) time.

(** [for i in k..=terms { sum += (coefficient * term).powf(exponent) }],
    [n] iterations left, starting at [i = k] *)
Fixpoint sum_loop (k n : nat) (coefficient exponent time sum : F64.t) : F64.t :=
  match n with
  | O => sum
  | S n' =>
      let term := F64.div (sin (arg k time)) (cosh (arg k time)) in
      sum_loop (S k) n' coefficient exponent time
               (F64.add sum (powf (F64.mul coefficient term) exponent))
  end.

Definition crooks_fluctuation_theorem (terms : nat)
    (coefficient exponent time : F64.t) : F64.t :=
  sum_loop 1 terms coefficient exponent time F64.zero.

(** The spec's formula (section 4.1): [contribution_i] and the sum over
    [i = 1 .. terms], accumulated in [f64] from [i = 1] upwards. *)
Definition contribution (coefficient exponent phase : F64.t) (i : nat) : F64.t :=
  powf (F64.mul coefficient
          (F64.div (sin (arg i phase)) (cosh (arg i phase)))) exponent.

Definition series_sum (terms : nat) (coefficient exponent phase : F64.t) : F64.t :=
  fold_left (fun acc i => F64.add acc (contribution coefficient exponent phase i))
            (seq 1 terms) F64.zero.

End Libm.
End Series.

(** ** The per-pixel colour mapping of [main] (src/src/main.rs) *)

Module Colour.

(** Rust's [x as u8] for [x : f64]: rounds toward zero and saturates;
    NaN gives 0. *)
Definition as_u8 (x : F64.t) : Z :=
  match x with
  | S754_nan => 0
  | S754_zero _ => 0
  | S754_infinity true => 0
  | S754_infinity false => 255
  | S754_finite true _ _ => 0
  | S754_finite false m e => Z.min 255 (Z.shiftl (Zpos m) e)
  end.

Definition half : F64.t := F64.lit 1 (-1).
Definition one : F64.t := F64.lit 1 0.
Definition two : F64.t := F64.lit 2 0.
Definition c255 : F64.t := F64.lit 255 0.

(** [red], [green], [blue] from [normalized_value] and the three random
    factors *)
Definition pixel_rgb (n r g b : F64.t) : Z * Z * Z :=
  let red := as_u8 (F64.mul (F64.mul n r) c255) in
  let green := as_u8 (F64.mul (F64.mul (F64.sub one n) g) c255) in
  let blue := as_u8 (F64.mul (F64.mul (F64.mul
                 (F64.sub half (F64.abs (F64.sub n half))) two) b) c255) in
  (red, green, blue).

(** the mathematical truncation toward zero of a finite [f64] *)
Definition trunc (x : F64.t) : option Z :=
  match x with
  | S754_zero _ => Some 0
  | S754_finite s m e => Some (cond_Zopp s (Z.shiftl (Zpos m) e))
  | _ => None
  end.

(** saturation of an integer to the byte range *)
Definition clamp_u8 (z : Z) : Z := Z.max 0 (Z.min 255 z).

End Colour.

(** ** Concrete runs and the spec's side of the claims *)

Module Runs.

(** the generator of the program's thread-local [RNG]: [new()] then
    [initialise(12345)] *)
Definition g12345 : Uni.rng :=
  match Uni.initialise Uni.new 12345 with Some g => g | None => Uni.new end.

(** the first 97 values the code draws from it *)
Definition code_draws_12345 : option (list F32.t) :=
  let* g := Uni.initialise Uni.new 12345 in Uni.draws 97 g.

(** [initialise(seed)] on [g], then [n] draws *)
Definition run (g : Uni.rng) (seed : Z) (n : nat) : option (list F32.t) :=
  let* g' := Uni.initialise g seed in Uni.draws n g'.

(** the state after [n] calls of [generate] *)
Fixpoint states (n : nat) (g : Uni.rng) : option Uni.rng :=
  match n with
  | O => Some g
  | S n' => let* (g', _) := Uni.generate g in states n' g'
  end.

(** the spec's rejection condition for [initialise] (C3): the seed is
    outside [0, 900000000], or a sub-seed is outside its band
    ([i], [j], [k] in [1, 178], [l] in [0, 168]), or [i = j = k = 1] *)
Definition seed_rejected (seed : Z) : Prop :=
  seed < 0 \/ 900000000 < seed \/
  (let '(i, j, k, l) := Uni.decompose seed in
   ~ (1 <= i <= 178) \/ ~ (1 <= j <= 178) \/ ~ (1 <= k <= 178) \/
   ~ (0 <= l <= 168) \/ (i = 1 /\ j = 1 /\ k = 1)).

(** the bands the seeds of [start] keep from round to round when they
    start in those [initialise] passes: [i], [j], [k] in [0, 178] (a
    remainder by 179 of a non-negative value) and [l] in [0, 168] *)
Definition seed_bands (q : Uni.seeds) : Prop :=
  0 <= Uni.si q <= 178 /\ 0 <= Uni.sj q <= 178 /\
  0 <= Uni.sk q <= 178 /\ 0 <= Uni.sl q <= 168.

End Runs.

(** ** The frame of [main] (src/src/main.rs): the per-pixel closure and
    the window buffer *)

Module Frame.

(** [x as f64] for [x : f32]: exact *)
Definition f32_to_f64 (x : F32.t) : F64.t :=
  match x with
  | S754_finite s m e => F64.lit (cond_Zopp s (Zpos m)) e
  | S754_zero s => S754_zero s
  | S754_infinity s => S754_infinity s
  | S754_nan => S754_nan
  end.

Definition terms : nat := 100.
Definition coefficient : F64.t := F64.lit 2 0.
Definition exponent : F64.t := F64.lit 3 0.
Definition scale_factor : F64.t := F64.lit 1000 0.
Definition hundred : F64.t := F64.lit 100 0.

(** The closure of [for_each] for the pixel [(x, y)] of the frame at
    [time], run against the generator [g] of its thread: the series value,
    three draws (red, green, blue factors), then the colour mapping. *)
Definition pixel (sin cosh : F64.t -> F64.t) (powf : F64.t -> F64.t -> F64.t)
    (g : Uni.rng) (time : F64.t) (x y : nat) : option (Uni.rng * (Z * Z * Z)) :=
  let t := F64.add (F64.add time (F64.div (F64.of_nat x) hundred))
                   (F64.div (F64.of_nat y) hundred) in
  let value := F64.mul (Series.crooks_fluctuation_theorem sin cosh powf
                          terms coefficient exponent t) scale_factor in
  let* (g1, random_factor_r) := Uni.generate g in
  let* (g2, random_factor_g) := Uni.generate g1 in
  let* (g3, random_factor_b) := Uni.generate g2 in
  let normalized_value := F64.add (F64.mul (sin value) Colour.half) Colour.half in
  Some (g3, Colour.pixel_rgb normalized_value (f32_to_f64 random_factor_r)
              (f32_to_f64 random_factor_g) (f32_to_f64 random_factor_b)).

Definition WIDTH : nat := 1024.
Definition HEIGHT : nat := 768.

(** [a << n] on [u32] *)
Definition shl32 (a : Z) (n : Z) : Z := Z.land (Z.shiftl a n) (Z.ones 32).

(** [(red << 16) | (green << 8) | blue], the channels widened to [u32] *)
Definition colour (rgb : Z * Z * Z) : Z :=
  let '(red, green, blue) := rgb in
  Z.lor (Z.lor (shl32 red 16) (shl32 green 8)) blue.

(** [buffer[i] = v] on the [Vec<u32>] of [WIDTH * HEIGHT] cells *)
Definition buffer_set (buffer : nat -> Z) (i : nat) (v : Z) : option (nat -> Z) :=
  if Nat.ltb i (WIDTH * HEIGHT)
  then Some (fun j => if Nat.eqb j i then v else buffer j)
  else None.

(** [image.enumerate_pixels()]: row by row, [x] fastest *)
Definition pixels : list (nat * nat) :=
  flat_map (fun y => map (fun x => (x, y)) (seq 0 WIDTH)) (seq 0 HEIGHT).

Definition copy_step (image : nat -> nat -> Z * Z * Z)
    (acc : option (nat -> Z)) (p : nat * nat) : option (nat -> Z) :=
  let '(x, y) := p in
  let* buffer := acc in
  buffer_set buffer (y * WIDTH + x) (colour (image x y)).

(** [vec![0; WIDTH * HEIGHT]] then the copy loop over the image *)
Definition copy_buffer (image : nat -> nat -> Z * Z * Z) : option (nat -> Z) :=
  fold_left (copy_step image) pixels (Some (fun _ => 0)).

End Frame.

(** ** Exact rounding *)

Module Exact.
Import Grid.

Lemma digits2_pos_size (p : positive) : digits2_pos p = Pos.size p.
Proof. induction p; simpl; congruence. Qed.

Lemma digits_log2 (p : positive) :
  Zpos (digits2_pos p) = Z.log2 (Zpos p) + 1.
Proof.
  rewrite digits2_pos_size.
  destruct p; simpl; try reflexivity; rewrite Pos2Z.inj_succ; reflexivity.
Qed.

Lemma digits_pos (p : positive) : 1 <= Zpos (digits2_pos p).
Proof. lia. Qed.

Lemma digits_mul_pow2 (p q : positive) (k : Z) :
  0 <= k -> Zpos q = Zpos p * 2 ^ k ->
  Zpos (digits2_pos q) = Zpos (digits2_pos p) + k.
Proof.
  intros Hk Hq. rewrite !digits_log2, Hq, Z.log2_mul_pow2; lia.
Qed.

Lemma digits_bound (p : positive) (d : Z) :
  Zpos p < 2 ^ d -> 0 <= d -> Zpos (digits2_pos p) <= d.
Proof.
  intros H Hd. rewrite digits_log2.
  assert (Z.log2 (Zpos p) < d) by (apply Z.log2_lt_pow2; lia). lia.
Qed.

Lemma digits_lower (p : positive) :
  2 ^ (Zpos (digits2_pos p) - 1) <= Zpos p.
Proof.
  rewrite digits_log2. replace (Z.log2 (Zpos p) + 1 - 1) with (Z.log2 (Zpos p)) by lia.
  apply Z.log2_spec. lia.
Qed.

Lemma digits_upper (p : positive) :
  Zpos p < 2 ^ Zpos (digits2_pos p).
Proof.
  rewrite digits_log2. apply Z.log2_spec. lia.
Qed.

Lemma shr_1_double (q : Z) :
  shr_1 {| shr_m := 2 * q; shr_r := false; shr_s := false |}
  = {| shr_m := q; shr_r := false; shr_s := false |}.
Proof. destruct q; reflexivity. Qed.

Lemma iter_shr_1_exact (p : positive) (q : Z) :
  iter_pos shr_1 p {| shr_m := q * 2 ^ Zpos p; shr_r := false; shr_s := false |}
  = {| shr_m := q; shr_r := false; shr_s := false |}.
Proof.
  revert q. induction p as [p IH | p IH |]; intro q; cbn [iter_pos].
  - replace (q * 2 ^ Zpos p~1) with (2 * ((q * 2 ^ Zpos p) * 2 ^ Zpos p)).
    + rewrite shr_1_double, !IH. reflexivity.
    + replace (Zpos p~1) with (Zpos p + Zpos p + 1) by lia.
      rewrite !Z.pow_add_r by lia. ring.
  - replace (q * 2 ^ Zpos p~0) with ((q * 2 ^ Zpos p) * 2 ^ Zpos p).
    + rewrite !IH. reflexivity.
    + replace (Zpos p~0) with (Zpos p + Zpos p) by lia.
      rewrite !Z.pow_add_r by lia. ring.
  - replace (q * 2 ^ 1) with (2 * q) by ring. apply shr_1_double.
Qed.

Lemma iter_xO (m d : positive) :
  Zpos (Pos.iter xO m d) = Zpos m * 2 ^ Zpos d.
Proof.
  induction d as [|d IH] using Pos.peano_ind.
  - simpl. lia.
  - rewrite Pos.iter_succ, Pos2Z.inj_succ, Z.pow_succ_r by lia.
    change (Zpos (Pos.iter xO m d)~0) with (2 * Zpos (Pos.iter xO m d)).
    rewrite IH. ring.
Qed.

Section Round.
Variables prec emax : Z.

(** When the value [m * 2^e] is representable with the exponent
    [fe := fexp (digits m + e)], rounding returns it unchanged. *)
Lemma binary_round_exact (s : bool) (m m' : positive) (e : Z) :
  let fe := fexp prec emax (Zpos (digits2_pos m) + e) in
  (fe <= e /\ Zpos m' = Zpos m * 2 ^ (e - fe)) \/
  (e < fe /\ Zpos m = Zpos m' * 2 ^ (fe - e)) ->
  fe <= emax - prec ->
  binary_round prec emax s m e = S754_finite s m' fe.
Proof.
  intros fe Hcase Hmax.
  assert (Hd : Zpos (digits2_pos m') + fe = Zpos (digits2_pos m) + e).
  { destruct Hcase as [[H1 H2] | [H1 H2]].
    - rewrite (digits_mul_pow2 m m' (e - fe)) by lia. lia.
    - rewrite (digits_mul_pow2 m' m (fe - e)) by lia. lia. }
  assert (Hfe : fexp prec emax (Zdigits2 (Zpos m') + fe) = fe).
  { simpl Zdigits2. rewrite Hd. reflexivity. }
  unfold binary_round.
  destruct Hcase as [[H1 H2] | [H1 H2]].
  - (* no right shift: the mantissa is aligned left, if at all *)
    assert (Hal : shl_align m e fe = (m', fe)).
    { unfold shl_align. destruct (fe - e) eqn:E.
      + assert (Hfe_e : fe = e) by lia.
        replace (e - fe) with 0 in H2 by lia.
        rewrite Z.mul_1_r in H2. injection H2 as H2. subst m'.
        rewrite Hfe_e. reflexivity.
      + lia.
      + f_equal. apply Pos2Z.inj. rewrite iter_xO, H2.
        replace (e - fe) with (Zpos p) by lia. reflexivity. }
    fold fe. rewrite Hal.
    unfold binary_round_aux, shr_fexp. rewrite Hfe, Z.sub_diag.
    cbn [shr shr_m shr_record_of_loc loc_of_shr_record round_nearest_even].
    rewrite Hfe, Z.sub_diag. cbn [shr shr_m shr_record_of_loc].
    apply Z.leb_le in Hmax. rewrite Hmax. reflexivity.
  - (* right shift by [fe - e] bits, all of them zero *)
    assert (Hal : shl_align m e fe = (m, e)).
    { unfold shl_align. destruct (fe - e) eqn:E; try lia. reflexivity. }
    fold fe. rewrite Hal.
    unfold binary_round_aux, shr_fexp. simpl Zdigits2. fold fe.
    destruct (fe - e) eqn:E; try lia.
    cbn [shr shr_record_of_loc]. rewrite H2, iter_shr_1_exact.
    replace (e + Zpos p) with fe by lia.
    cbn [shr_m loc_of_shr_record round_nearest_even].
    unfold shr_fexp. rewrite Hfe, Z.sub_diag. cbn [shr shr_m shr_record_of_loc].
    apply Z.leb_le in Hmax. rewrite Hmax. reflexivity.
Qed.

End Round.

(** Exact [f32] addition and subtraction on the grid. *)

Lemma pow2_gt0 (k : Z) : 0 <= k -> 0 < 2 ^ k.
Proof. intro. apply Z.pow_pos_nonneg; lia. Qed.

Lemma mul_pow2_cancel (x y k : Z) : 0 <= k -> x * 2 ^ k = y * 2 ^ k -> x = y.
Proof.
  intros Hk H. apply Z.mul_cancel_r with (2 ^ k); [|exact H].
  pose proof (pow2_gt0 k Hk). lia.
Qed.

Lemma cond_Zopp_mul (s : bool) (x y : Z) :
  cond_Zopp s (x * y) = cond_Zopp s x * y.
Proof. destruct s; simpl; ring. Qed.

Lemma round_grid (s : bool) (n pa : positive) (ez : Z) :
  -48 <= ez ->
  Zpos n * 2 ^ (ez + 48) = Zpos pa * 2 ^ 24 ->
  Zpos pa < 2 ^ 24 ->
  exists m' fe,
    binary_round F32.prec F32.emax s n ez = S754_finite s m' fe /\
    Zpos (digits2_pos m') = 24 /\ -48 <= fe /\
    Zpos m' * 2 ^ (fe + 48) = Zpos pa * 2 ^ 24.
Proof.
  intros Hez Hval Hlt.
  set (dA := Zpos (digits2_pos pa)).
  assert (HdA : dA <= 24) by (apply digits_bound; lia).
  assert (HdA1 : 1 <= dA) by apply digits_pos.
  (* the digits of [n]: [digits n + ez = dA - 24] *)
  assert (Hdn : Zpos (digits2_pos n) + ez = dA - 24).
  { assert (Hq : Zpos (Z.to_pos (Zpos n * 2 ^ (ez + 48))) = Zpos n * 2 ^ (ez + 48)).
    { rewrite Z2Pos.id; [reflexivity|]. pose proof (pow2_gt0 (ez + 48) ltac:(lia)). nia. }
    pose proof (digits_mul_pow2 n _ (ez + 48) ltac:(lia) Hq) as H1.
    assert (Hq' : Zpos (Z.to_pos (Zpos n * 2 ^ (ez + 48))) = Zpos pa * 2 ^ 24)
      by (rewrite Hq; exact Hval).
    pose proof (digits_mul_pow2 pa _ 24 ltac:(lia) Hq') as H2.
    unfold dA. lia. }
  set (mz := Zpos pa * 2 ^ (24 - dA)).
  assert (Hmz : 0 < mz) by (unfold mz; pose proof (pow2_gt0 (24 - dA) ltac:(lia)); nia).
  exists (Z.to_pos mz), (dA - 48).
  assert (Hm' : Zpos (Z.to_pos mz) = Zpos pa * 2 ^ (24 - dA)) by (rewrite Z2Pos.id; auto).
  assert (Hfe : fexp F32.prec F32.emax (Zpos (digits2_pos n) + ez) = dA - 48).
  { rewrite Hdn. unfold fexp, emin, F32.prec, F32.emax. lia. }
  split; [|split; [|split]].
  - pose proof (binary_round_exact F32.prec F32.emax s n (Z.to_pos mz) ez) as HR.
    cbv zeta in HR. rewrite Hfe in HR. apply HR; [|unfold F32.prec, F32.emax; lia].
    destruct (Z_le_gt_dec (dA - 48) ez) as [Hle | Hgt].
    + left. split; [exact Hle|]. rewrite Hm'.
      apply (mul_pow2_cancel _ _ dA); [lia|].
      rewrite <- !Z.mul_assoc, <- !Z.pow_add_r by lia.
      replace (ez - (dA - 48) + dA) with (ez + 48) by lia.
      replace (24 - dA + dA) with 24 by lia. symmetry. exact Hval.
    + right. split; [lia|]. rewrite Hm'.
      apply (mul_pow2_cancel _ _ (ez + 48)); [lia|]. rewrite Hval.
      rewrite <- !Z.mul_assoc, <- !Z.pow_add_r by lia. f_equal. f_equal. lia.
  - rewrite (digits_mul_pow2 pa (Z.to_pos mz) (24 - dA)); [unfold dA; lia | lia | exact Hm'].
  - lia.
  - rewrite Hm', <- Z.mul_assoc, <- Z.pow_add_r by lia. f_equal. f_equal. lia.
Qed.

Lemma normalize_grid (N ez A : Z) :
  -48 <= ez -> N * 2 ^ (ez + 48) = A * 2 ^ 24 -> Z.abs A < 2 ^ 24 ->
  grid (binary_normalize F32.prec F32.emax N ez false) A.
Proof.
  intros Hez Hval Hlt.
  pose proof (pow2_gt0 (ez + 48) ltac:(lia)).
  pose proof (pow2_gt0 24 ltac:(lia)).
  destruct N as [|n|n]; simpl.
  - nia.
  - destruct A as [|pa|pa]; [nia| |nia].
    destruct (round_grid false n pa ez) as (m' & fe & -> & H1 & H2 & H3); auto; try lia.
    simpl. auto.
  - destruct A as [|pa|pa]; [nia|nia|].
    assert (Hv : Zpos n * 2 ^ (ez + 48) = Zpos pa * 2 ^ 24).
    { change (Zneg n) with (- Zpos n) in Hval.
      change (Zneg pa) with (- Zpos pa) in Hval.
      rewrite !Z.mul_opp_l in Hval. lia. }
    destruct (round_grid true n pa ez) as (m' & fe & -> & H1 & H2 & H3);
      auto; try lia.
    cbn [grid cond_Zopp]. repeat split; auto.
    change (Zneg pa) with (- Zpos pa). rewrite !Z.mul_opp_l, H3. reflexivity.
Qed.

Lemma shl_align_fst (m : positive) (e e' : Z) :
  e' <= e -> Zpos (fst (shl_align m e e')) = Zpos m * 2 ^ (e - e').
Proof.
  intro H. unfold shl_align. destruct (e' - e) eqn:E; cbn [fst].
  - replace (e - e') with 0 by lia. rewrite Z.pow_0_r, Z.mul_1_r. reflexivity.
  - lia.
  - rewrite iter_xO. do 2 f_equal. lia.
Qed.

Lemma aligned_val (s : bool) (m : positive) (e ez : Z) :
  -48 <= ez -> ez <= e ->
  cond_Zopp s (Zpos (fst (shl_align m e ez))) * 2 ^ (ez + 48)
  = cond_Zopp s (Zpos m) * 2 ^ (e + 48).
Proof.
  intros Hez H. rewrite shl_align_fst by lia.
  rewrite cond_Zopp_mul, <- Z.mul_assoc, <- Z.pow_add_r by lia.
  replace (e - ez + (ez + 48)) with (e + 48) by lia. reflexivity.
Qed.

Lemma grid_add (x y : F32.t) (a b : Z) :
  grid x a -> grid y b -> Z.abs (a + b) < 2 ^ 24 -> grid (F32.add x y) (a + b).
Proof.
  unfold F32.add.
  destruct x as [sx|sx| |sx mx ex]; destruct y as [sy|sy| |sy my ey];
    simpl; intros Hx Hy Hab; try contradiction.
  - destruct sx, sy; simpl; lia.
  - subst a. exact Hy.
  - subst b. rewrite Z.add_0_r. exact Hx.
  - destruct Hx as (_ & Hex & Hx), Hy as (_ & Hey & Hy).
    apply normalize_grid; [lia| |exact Hab].
    rewrite Z.mul_add_distr_r, !aligned_val by lia. lia.
Qed.

Lemma grid_sub (x y : F32.t) (a b : Z) :
  grid x a -> grid y b -> Z.abs (a - b) < 2 ^ 24 -> grid (F32.sub x y) (a - b).
Proof.
  unfold F32.sub.
  destruct x as [sx|sx| |sx mx ex]; destruct y as [sy|sy| |sy my ey];
    simpl; intros Hx Hy Hab; try contradiction.
  - destruct sx, sy; simpl; lia.
  - subst a. destruct Hy as (H1 & H2 & H3). repeat split; auto.
    destruct sy; cbn [cond_Zopp negb] in *; nia.
  - subst b. rewrite Z.sub_0_r. exact Hx.
  - destruct Hx as (_ & Hex & Hx), Hy as (_ & Hey & Hy).
    apply normalize_grid; [lia| |exact Hab].
    rewrite Z.mul_sub_distr_r, !aligned_val by lia. lia.
Qed.

Lemma grid_ltb_zero (x : F32.t) (a : Z) :
  grid x a -> F32.ltb x F32.zero = (a <? 0).
Proof.
  pose proof (pow2_gt0 24 ltac:(lia)).
  destruct x as [sx|sx| |sx mx ex]; simpl; intro Hx; try contradiction.
  - subst a. reflexivity.
  - destruct Hx as (_ & He & Hv).
    pose proof (pow2_gt0 (ex + 48) ltac:(lia)).
    unfold F32.ltb, SFltb. simpl.
    destruct sx; cbn [cond_Zopp] in Hv; symmetry;
      [apply Z.ltb_lt | apply Z.ltb_ge]; nia.
Qed.

Lemma grid_zero : grid F32.zero 0.
Proof. reflexivity. Qed.

Lemma gridb_grid (x : F32.t) (a : Z) : gridb x a = true -> grid x a.
Proof.
  unfold gridb, grid. destruct x; try discriminate.
  - apply Z.eqb_eq.
  - intro H. apply andb_prop in H as [H H3]. apply andb_prop in H as [H1 H2].
    apply Z.eqb_eq in H1. apply Z.leb_le in H2. apply Z.eqb_eq in H3. auto.
Qed.

Lemma grid_one : grid F32.one (2 ^ 24).
Proof. apply gridb_grid. vm_compute. reflexivity. Qed.

(** a grid value in [0, 2^24) is a float in [0, 1) *)
Lemma grid_unit_range (x : F32.t) (a : Z) :
  grid x a -> 0 <= a < 2 ^ 24 ->
  F32.leb F32.zero x = true /\ F32.ltb x F32.one = true.
Proof.
  intros Hx Ha.
  replace F32.one with (S754_finite false 8388608 (-23)) by (vm_compute; reflexivity).
  destruct x as [sx|sx| |sx mx ex]; simpl in Hx; try contradiction.
  - split; reflexivity.
  - destruct Hx as (Hd & He & Hv).
    pose proof (digits_lower mx) as Hlow. rewrite Hd in Hlow.
    pose proof (pow2_gt0 (ex + 48) ltac:(lia)).
    destruct sx; cbn [cond_Zopp] in Hv.
    + exfalso. nia.
    + unfold F32.leb, F32.ltb, SFleb, SFltb, SFcompare.
      split; [reflexivity|].
      destruct (Z.compare_spec ex (-23)) as [E|E|E]; [exfalso| reflexivity |exfalso].
      * subst ex. simpl in Hv, Hlow. nia.
      * assert (2 ^ 25 <= 2 ^ (ex + 48)) by (apply Z.pow_le_mono_r; lia).
        change (2 ^ (24 - 1)) with 8388608 in Hlow.
        change (2 ^ 24) with 16777216 in Ha, Hv.
        change (2 ^ 25) with 33554432 in H0. nia.
Qed.

End Exact.

(** ** Invariants of the generator *)

Module UniFacts.
Import Grid Exact.

Lemma tval_grid (n : nat) :
  (n < 24)%nat -> grid (tval n) (2 ^ (23 - Z.of_nat n)).
Proof.
  intro H. apply gridb_grid.
  assert (Hall : forallb (fun n => gridb (tval n) (2 ^ (23 - Z.of_nat n)))
                         (seq 0 24) = true) by (vm_compute; reflexivity).
  rewrite forallb_forall in Hall. apply Hall. apply in_seq. lia.
Qed.

Lemma start_rounds_succ (n : nat) st :
  Uni.start_rounds (S n) st = Uni.start_round (Uni.start_rounds n st).
Proof.
  revert st. induction n as [|n IH]; intro st; [reflexivity|].
  change (Uni.start_rounds (S (S n)) st)
    with (Uni.start_rounds (S n) (Uni.start_round st)).
  rewrite IH. reflexivity.
Qed.

Lemma start_rounds_inv (n : nat) (q : Uni.seeds) :
  (n <= 24)%nat ->
  exists q' s a,
    Uni.start_rounds n (q, F32.zero, F32.half) = (q', s, tval n) /\
    grid s a /\ 0 <= a <= 2 ^ 24 - 2 ^ (24 - Z.of_nat n).
Proof.
  induction n as [|n IH]; intro Hn.
  - exists q, F32.zero, 0. split; [reflexivity|]. split; [reflexivity|].
    simpl. lia.
  - destruct IH as (q' & s & a & Heq & Hg & Ha); [lia|].
    rewrite start_rounds_succ, Heq. unfold Uni.start_round.
    set (P := 2 ^ (23 - Z.of_nat n)).
    assert (H2 : 2 ^ (24 - Z.of_nat n) = 2 * P).
    { unfold P. rewrite <- Z.pow_succ_r by lia. f_equal. lia. }
    assert (H3 : 2 ^ (24 - Z.of_nat (S n)) = P) by (unfold P; f_equal; lia).
    assert (HP : 0 < P) by (apply pow2_gt0; lia).
    pose proof (tval_grid n ltac:(lia)) as Ht. fold P in Ht.
    rewrite H3. rewrite H2 in Ha.
    destruct (32 <=? _).
    + eexists; exists (F32.add s (tval n)), (a + P).
      split; [reflexivity|]. split; [|lia].
      apply grid_add; auto. lia.
    + eexists; exists s, a.
      split; [reflexivity|]. split; [exact Hg|lia].
Qed.

Lemma start_slot_ok (q : Uni.seeds) : slot_ok (snd (Uni.start_slot q)).
Proof.
  destruct (start_rounds_inv 24 q) as (q' & s & a & Heq & Hg & Ha); [lia|].
  unfold Uni.start_slot. rewrite Heq. exists a. simpl in Ha |- *. split; auto. lia.
Qed.

Lemma get_ok (a : Uni.array) (i : nat) : (i < 98)%nat -> Uni.get a i = Some (a i).
Proof. intro H. unfold Uni.get, Uni.LEN_U. apply Nat.ltb_lt in H. rewrite H. reflexivity. Qed.

Lemma set_ok (a : Uni.array) (i : nat) (v : F32.t) :
  (i < 98)%nat ->
  Uni.set a i v = Some (fun j => if Nat.eqb j i then v else a j).
Proof. intro H. unfold Uni.set, Uni.LEN_U. apply Nat.ltb_lt in H. rewrite H. reflexivity. Qed.

(** [start_fill ii n] writes exactly the slots [ii .. ii+n-1]. *)
Lemma start_fill_spec (n ii : nat) (q : Uni.seeds) (a : Uni.array) :
  (ii + n <= 98)%nat ->
  exists a',
    Uni.start_fill ii n q a = Some a' /\
    (forall j, (j < ii \/ ii + n <= j)%nat -> a' j = a j) /\
    (forall j, (ii <= j < ii + n)%nat -> slot_ok (a' j)).
Proof.
  revert ii q a. induction n as [|n IH]; intros ii q a Hle.
  - exists a. split; [reflexivity|]. split; [reflexivity|]. intros j Hj. lia.
  - cbn [Uni.start_fill]. pose proof (start_slot_ok q) as Hs.
    destruct (Uni.start_slot q) as [q' s] eqn:Eslot. cbn [snd] in Hs.
    rewrite set_ok by lia.
    destruct (IH (S ii) q' (fun j => if Nat.eqb j ii then s else a j))
      as (a' & Hfill & Hframe & Hslots); [lia|].
    exists a'. split; [exact Hfill|]. split.
    + intros j Hj. rewrite Hframe by lia.
      destruct (Nat.eqb_spec j ii); [lia|reflexivity].
    + intros j Hj. destruct (Nat.eq_dec j ii) as [->|Hne].
      * rewrite Hframe by lia. rewrite Nat.eqb_refl. exact Hs.
      * apply Hslots. lia.
Qed.

Lemma start_spec (g : Uni.rng) (a b c d : Z) :
  exists g',
    Uni.start g a b c d = Some g' /\
    Uni.recent_values g' 0%nat = Uni.recent_values g 0%nat /\
    (forall j, (98 <= j)%nat -> Uni.recent_values g' j = Uni.recent_values g j) /\
    (forall j, (1 <= j < 98)%nat -> slot_ok (Uni.recent_values g' j)) /\
    Uni.correction g' = F32.div (F32.lit 362436 0) (F32.lit 16777216 0) /\
    Uni.correction_delta g' = F32.div (F32.lit 7654321 0) (F32.lit 16777216 0) /\
    Uni.correction_modulus g' = F32.div (F32.lit 16777213 0) (F32.lit 16777216 0) /\
    Uni.current_index g' = 97%nat /\ Uni.second_index g' = 33%nat.
Proof.
  destruct (start_fill_spec 97 1 (Uni.Seeds a b c d) (Uni.recent_values g))
    as (a' & Hfill & Hframe & Hslots); [lia|].
  unfold Uni.start. rewrite Hfill.
  eexists. split; [reflexivity|]. cbn [Uni.recent_values Uni.correction
    Uni.correction_delta Uni.correction_modulus Uni.current_index Uni.second_index].
  repeat split.
  all: first [ apply Hframe; lia
             | intros j Hj; apply Hframe; lia
             | intros j Hj; apply Hslots; lia ].
Qed.

Lemma initialise_start (g g' : Uni.rng) (seed : Z) :
  Uni.initialise g seed = Some g' ->
  exists i j k l, Uni.start g i j k l = Some g'.
Proof.
  unfold Uni.initialise. destruct (Uni.decompose seed) as [[[i j] k] l].
  repeat match goal with
         | |- context [if ?b then _ else _] => destruct b
         end.
  all: intro H; first [ exists i, j, k, l; exact H | discriminate H ].
Qed.

Lemma c_init_grid : grid c_init 362436.
Proof. apply gridb_grid. vm_compute. reflexivity. Qed.

Lemma c_delta_grid : grid c_delta 7654321.
Proof. apply gridb_grid. vm_compute. reflexivity. Qed.

Lemma c_modulus_grid : grid c_modulus 16777213.
Proof. apply gridb_grid. vm_compute. reflexivity. Qed.

Lemma slot_ok_zero : slot_ok F32.zero.
Proof. exists 0. split; [reflexivity|lia]. Qed.

Lemma wrap_ok (x : F32.t) (a : Z) :
  grid x a -> - 2 ^ 24 < a < 2 ^ 24 ->
  slot_ok (if F32.ltb x F32.zero then F32.add x F32.one else x).
Proof.
  intros Hx Ha. rewrite (grid_ltb_zero x a Hx).
  change (2 ^ 24) with 16777216 in Ha.
  destruct (Z.ltb_spec a 0).
  - exists (a + 2 ^ 24). split.
    + apply grid_add; [exact Hx | exact grid_one |].
      change (2 ^ 24) with 16777216. lia.
    + change (2 ^ 24) with 16777216. lia.
  - exists a. split; [exact Hx|]. change (2 ^ 24) with 16777216. lia.
Qed.

Lemma corr_ok (x : F32.t) :
  slot_ok x ->
  slot_ok (if F32.ltb (F32.sub x c_delta) F32.zero
           then F32.add (F32.sub x c_delta) c_modulus
           else F32.sub x c_delta).
Proof.
  intros (c & Hx & Hc). change (2 ^ 24) with 16777216 in Hc.
  assert (Hs : grid (F32.sub x c_delta) (c - 7654321)).
  { apply grid_sub; [exact Hx | exact c_delta_grid |].
    change (2 ^ 24) with 16777216. lia. }
  rewrite (grid_ltb_zero _ _ Hs).
  destruct (Z.ltb_spec (c - 7654321) 0).
  - exists (c - 7654321 + 16777213). split.
    + apply grid_add; [exact Hs | exact c_modulus_grid |].
      change (2 ^ 24) with 16777216. lia.
    + change (2 ^ 24) with 16777216. lia.
  - exists (c - 7654321). split; [exact Hs|]. change (2 ^ 24) with 16777216. lia.
Qed.

Lemma step_index_lt (i : nat) : (i < 98)%nat -> (Uni.step_index i < 98)%nat.
Proof. intro H. unfold Uni.step_index. destruct (Nat.eqb_spec i 0); lia. Qed.

Lemma generate_inv (g : Uni.rng) :
  inv g ->
  exists g' v, Uni.generate g = Some (g', v) /\ inv g' /\ slot_ok v.
Proof.
  intros [Hs Hc Hd Hm Hcur Hsec].
  unfold Uni.generate. rewrite !get_ok by assumption.
  cbv beta iota zeta. rewrite set_ok by assumption.
  rewrite Hd, Hm.
  destruct (Hs _ Hcur) as (A & HA & HA'), (Hs _ Hsec) as (B & HB & HB').
  assert (Hsub : grid (F32.sub (Uni.recent_values g (Uni.current_index g))
                               (Uni.recent_values g (Uni.second_index g))) (A - B)).
  { apply grid_sub; auto. change (2 ^ 24) with 16777216 in *. lia. }
  pose proof (wrap_ok _ _ Hsub ltac:(change (2 ^ 24) with 16777216 in *; lia))
    as (V & HV & HV').
  pose proof (corr_ok _ Hc) as (C & HC & HC').
  assert (Hsub2 := grid_sub _ _ _ _ HV HC
                     ltac:(change (2 ^ 24) with 16777216 in *; lia)).
  pose proof (wrap_ok _ _ Hsub2 ltac:(change (2 ^ 24) with 16777216 in *; lia))
    as Hout.
  eexists _, _. split; [reflexivity|]. split; [|exact Hout].
  constructor; cbn [Uni.recent_values Uni.correction Uni.correction_delta
    Uni.correction_modulus Uni.current_index Uni.second_index].
  - intros i Hi. destruct (Nat.eqb i (Uni.current_index g)).
    + exists V. auto.
    + apply Hs. exact Hi.
  - exists C. auto.
  - reflexivity.
  - reflexivity.
  - apply step_index_lt. exact Hcur.
  - apply step_index_lt. exact Hsec.
Qed.

Lemma reachable_inv (g : Uni.rng) : Uni.reachable g -> inv g.
Proof.
  induction 1 as [seed g Hinit | g g' v Hr IH Hgen].
  - destruct (initialise_start _ _ _ Hinit) as (i & j & k & l & Hst).
    destruct (start_spec Uni.new i j k l)
      as (g'' & Hst' & H0 & _ & Hsl & Hc & Hd & Hm & Hcur & Hsec).
    rewrite Hst in Hst'. injection Hst' as <-.
    constructor.
    + intros i' Hi'. destruct i' as [|i'].
      * rewrite H0. apply slot_ok_zero.
      * apply Hsl. lia.
    + rewrite Hc. exists 362436. split; [exact c_init_grid | lia].
    + exact Hd.
    + exact Hm.
    + rewrite Hcur. lia.
    + rewrite Hsec. lia.
  - destruct (generate_inv g IH) as (g'' & v'' & Hgen' & Hinv & _).
    rewrite Hgen in Hgen'. injection Hgen' as <- _. exact Hinv.
Qed.

End UniFacts.

(** ** Determinism of the generator *)

Module Determinism.
Import Grid.

Lemma generate_same (g h : Uni.rng) :
  same_state g h ->
  match Uni.generate g, Uni.generate h with
  | Some (g', v), Some (h', w) => v = w /\ same_state g' h'
  | None, None => True
  | _, _ => False
  end.
Proof.
  intros (Hv & Hc & Hd & Hm & Hi & Hs).
  unfold Uni.generate. rewrite Hc, Hd, Hm, Hi, Hs.
  unfold Uni.get, Uni.set, Uni.LEN_U.
  destruct (Nat.ltb_spec (Uni.current_index h) 98) as [H1|H1];
    [|cbv beta iota; exact I].
  destruct (Nat.ltb_spec (Uni.second_index h) 98) as [H2|H2];
    [|cbv beta iota; exact I].
  rewrite (Hv _ H1), (Hv _ H2). cbv beta iota zeta.
  split; [reflexivity|].
  unfold same_state; cbn [Uni.recent_values Uni.correction Uni.correction_delta
    Uni.correction_modulus Uni.current_index Uni.second_index].
  repeat split.
  intros i Hi'. destruct (Nat.eqb i (Uni.current_index h));
    [reflexivity|apply Hv; exact Hi'].
Qed.

Lemma draws_same (n : nat) :
  forall g h, same_state g h -> Uni.draws n g = Uni.draws n h.
Proof.
  induction n as [|n IH]; intros g h H; [reflexivity|].
  cbn [Uni.draws]. pose proof (generate_same g h H) as G.
  destruct (Uni.generate g) as [[g' v]|], (Uni.generate h) as [[h' w]|];
    try contradiction; [|reflexivity].
  destruct G as [<- Hs]. rewrite (IH g' h' Hs). reflexivity.
Qed.

(** [start_fill ii n] overwrites slots [ii .. ii+n-1]: arrays agreeing
    elsewhere are equal after it. *)
Lemma start_fill_same (n : nat) :
  forall ii q (a b : Uni.array),
  (forall i, (i < 98)%nat -> (i < ii \/ ii + n <= i)%nat -> a i = b i) ->
  match Uni.start_fill ii n q a, Uni.start_fill ii n q b with
  | Some a', Some b' => forall i, (i < 98)%nat -> a' i = b' i
  | None, None => True
  | _, _ => False
  end.
Proof.
  induction n as [|n IH]; intros ii q a b H.
  - cbn [Uni.start_fill]. intros i Hi. apply H; lia.
  - cbn [Uni.start_fill]. destruct (Uni.start_slot q) as [q' s].
    unfold Uni.set, Uni.LEN_U.
    destruct (Nat.ltb_spec ii 98); cbv beta iota; [|exact I].
    apply IH. intros i Hi Hr.
    destruct (Nat.eqb_spec i ii); [reflexivity|apply H; lia].
Qed.

Lemma initialise_same (g1 g2 : Uni.rng) (seed : Z) :
  Uni.recent_values g1 0%nat = Uni.recent_values g2 0%nat ->
  match Uni.initialise g1 seed, Uni.initialise g2 seed with
  | Some a, Some b => same_state a b
  | None, None => True
  | _, _ => False
  end.
Proof.
  intro H0. unfold Uni.initialise.
  destruct (Uni.decompose seed) as [[[i j] k] l].
  repeat match goal with
         | |- context [if ?b then _ else _] =>
             lazymatch type of b with bool => destruct b end
         end.
  all: cbv beta iota.
  all: try match goal with |- True => exact I end.
  unfold Uni.start.
  pose proof (start_fill_same 97 1 (Uni.Seeds i j k l)
                (Uni.recent_values g1) (Uni.recent_values g2)) as F.
  assert (Hpre : forall i0, (i0 < 98)%nat -> (i0 < 1 \/ 1 + 97 <= i0)%nat ->
            Uni.recent_values g1 i0 = Uni.recent_values g2 i0).
  { intros i0 Hi Hr. assert (i0 = 0%nat) as -> by lia. exact H0. }
  specialize (F Hpre).
  destruct (Uni.start_fill 1 97 (Uni.Seeds i j k l) (Uni.recent_values g1)) as [a|],
           (Uni.start_fill 1 97 (Uni.Seeds i j k l) (Uni.recent_values g2)) as [b|];
    try contradiction; cbv beta iota; [|exact I].
  unfold same_state; cbn [Uni.recent_values Uni.correction Uni.correction_delta
    Uni.correction_modulus Uni.current_index Uni.second_index].
  repeat split. exact F.
Qed.

End Determinism.

(** ** The seed decomposition *)

Module SeedFacts.

Lemma decompose_bounds (seed : Z) :
  0 <= seed ->
  let '(i, j, k, l) := Uni.decompose seed in
  2 <= i <= 178 /\ 2 <= j <= 178 /\ 1 <= k <= 178 /\ 0 <= l <= 168.
Proof.
  intro H. unfold Uni.decompose.
  assert (Hkl : seed - 30082 * Z.quot seed 30082 = Z.rem seed 30082)
    by (rewrite Z.rem_eq by lia; reflexivity).
  rewrite Hkl.
  pose proof (Z.quot_pos seed 30082 H ltac:(lia)) as Hij.
  pose proof (Z.rem_bound_pos seed 30082 H ltac:(lia)) as Hr.
  set (ij := Z.quot seed 30082) in *. set (kl := Z.rem seed 30082) in *.
  pose proof (Z.quot_pos ij 177 Hij ltac:(lia)).
  pose proof (Z.rem_bound_pos (Z.quot ij 177) 177 ltac:(assumption) ltac:(lia)).
  pose proof (Z.rem_bound_pos ij 177 Hij ltac:(lia)).
  pose proof (Z.quot_pos kl 169 ltac:(lia) ltac:(lia)).
  pose proof (Z.rem_bound_pos (Z.quot kl 169) 178 ltac:(assumption) ltac:(lia)).
  pose proof (Z.rem_bound_pos kl 169 ltac:(lia) ltac:(lia)).
  lia.
Qed.

End SeedFacts.

(** ** Facts about concrete runs *)

Module RunFacts.
Import Grid Runs.

Lemma states_reachable (n : nat) :
  forall g g', Uni.reachable g -> states n g = Some g' -> Uni.reachable g'.
Proof.
  induction n as [|n IH]; intros g g' Hr Hs.
  - injection Hs as <-. exact Hr.
  - cbn [states] in Hs.
    destruct (Uni.generate g) as [[g1 v]|] eqn:Hg; [|discriminate Hs].
    apply (IH g1); [exact (Uni.reachable_step g g1 v Hr Hg) | exact Hs].
Qed.

Lemma step_index_mod (i : nat) :
  (i < 98)%nat -> Uni.step_index i = ((i + 97) mod 98)%nat.
Proof.
  intro H. unfold Uni.step_index. destruct (Nat.eqb_spec i 0) as [->|Hne].
  - reflexivity.
  - apply (Nat.mod_unique (i + 97) 98 1 (i - 1)); lia.
Qed.

Lemma generate_cursors (g g' : Uni.rng) (v : F32.t) :
  Grid.inv g -> Uni.generate g = Some (g', v) ->
  Uni.current_index g' = Uni.step_index (Uni.current_index g) /\
  Uni.second_index g' = Uni.step_index (Uni.second_index g).
Proof.
  intros [_ _ _ _ Hcur Hsec] Hg.
  unfold Uni.generate in Hg. rewrite !UniFacts.get_ok in Hg by assumption.
  cbv beta iota zeta in Hg. rewrite UniFacts.set_ok in Hg by assumption.
  cbv beta iota in Hg. injection Hg as <- _. split; reflexivity.
Qed.

Lemma sum_loop_fold sin cosh powf (n : nat) :
  forall k c e p acc,
  Series.sum_loop sin cosh powf k n c e p acc =
  fold_left (fun acc i => F64.add acc (Series.contribution sin cosh powf c e p i))
            (seq k n) acc.
Proof.
  induction n as [|n IH]; intros k c e p acc; [reflexivity|].
  cbn [Series.sum_loop seq fold_left]. apply IH.
Qed.

Lemma as_u8_range (x : F64.t) : 0 <= Colour.as_u8 x <= 255.
Proof.
  destruct x as [s|[|]| |[|] m e]; cbn [Colour.as_u8]; try lia.
  pose proof (Z.shiftl_nonneg (Zpos m) e) as H.
  assert (0 <= Z.shiftl (Zpos m) e) by (apply H; lia). lia.
Qed.

End RunFacts.

(** ** The claims *)

Module Claims.
Import Grid UniFacts Runs RunFacts.

(** Claim C1 (refinement against the golden vector).  The first 97 values
    drawn by the code after [new()] and [initialise(12345)] are NOT the
    golden vector of the spec's algorithm: the first 33 values agree bit for
    bit, the 34th differs.  In the code the cursors step through 98 slots
    ([0 .. 97]) and the 34th draw reads slot 0, which [start] never fills;
    the spec's algorithm has a 97-slot buffer. *)
Theorem golden_vector_diverges :
  exists l, code_draws_12345 = Some l /\ length l = 97%nat /\
    firstn 33 l = firstn 33 Golden.golden_12345 /\
    nth 33 l F32.zero <> nth 33 Golden.golden_12345 F32.zero.
Proof.
  exists (match code_draws_12345 with Some l => l | None => [] end).
  vm_compute. split; [reflexivity|]. split; [reflexivity|].
  split; [reflexivity|]. intro H. discriminate H.
Qed.

(** Claim C2 (a slip of the code).  The claim fails on the code: right
    after [initialise(12345)] the current cursor is 97, outside [0, 96];
    after 33 more draws the second cursor is 0 and the next draw moves it
    to 97, not 96.  [generate] tests a cursor for 0 before decrementing it
    and wraps it to 97, so the cursors run through the 98 values 0 .. 97
    where the 97 slots [start] fills (1 .. 97) call for a cycle of 97. *)
Theorem cursor_range_violated :
  (exists g, Uni.reachable g /\ Uni.current_index g = 97%nat) /\
  (exists g g' v, Uni.reachable g /\ Uni.second_index g = 0%nat /\
     Uni.generate g = Some (g', v) /\ Uni.second_index g' = 97%nat) /\
  ~ (forall g, Uni.reachable g ->
       (Uni.current_index g <= 96 /\ Uni.second_index g <= 96)%nat /\
       (forall g' v, Uni.generate g = Some (g', v) ->
          Uni.current_index g' = ((Uni.current_index g + 96) mod 97)%nat /\
          Uni.second_index g' = ((Uni.second_index g + 96) mod 97)%nat)).
Proof.
  assert (Hr : Uni.reachable g12345)
    by (apply (Uni.reachable_init 12345); vm_compute; reflexivity).
  split; [exists g12345; split; [exact Hr | vm_compute; reflexivity]|].
  split.
  - exists (match states 33 g12345 with Some g => g | None => Uni.new end),
      (match Uni.generate (match states 33 g12345 with Some g => g | None => Uni.new end)
       with Some (g', _) => g' | None => Uni.new end),
      (match Uni.generate (match states 33 g12345 with Some g => g | None => Uni.new end)
       with Some (_, v) => v | None => F32.zero end).
    split.
    + apply (states_reachable 33 g12345); [exact Hr | vm_compute; reflexivity].
    + split; [vm_compute; reflexivity|]. split; vm_compute; reflexivity.
  - intro H. destruct (H g12345 Hr) as [[Hc _] _].
    vm_compute in Hc. lia.
Qed.

(** Claim C4.  In every reachable state, the value [v] returned by
    [generate] satisfies [0.0 <= v] and [v < 1.0] as [f32] comparisons. *)
Theorem generate_in_unit_interval (g g' : Uni.rng) (v : F32.t) :
  Uni.reachable g -> Uni.generate g = Some (g', v) ->
  F32.leb F32.zero v = true /\ F32.ltb v F32.one = true.
Proof.
  intros Hr Hg.
  destruct (generate_inv g (reachable_inv g Hr)) as (g1 & v1 & Hg1 & _ & a & Ha & Ha').
  rewrite Hg in Hg1. injection Hg1 as <- <-.
  exact (Exact.grid_unit_range v a Ha Ha').
Qed.

Lemma generate_in_unit_interval_witness :
  F32.leb F32.zero
    (match Uni.generate g12345 with Some (_, v) => v | None => F32.zero end) = true /\
  F32.ltb
    (match Uni.generate g12345 with Some (_, v) => v | None => F32.zero end)
    F32.one = true.
Proof.
  apply (generate_in_unit_interval g12345
           (match Uni.generate g12345 with Some (g', _) => g' | None => Uni.new end)).
  - apply (Uni.reachable_init 12345). vm_compute. reflexivity.
  - vm_compute. reflexivity.
Defined.

(** Claim C3.  [initialise(seed)] panics exactly when the seed is outside
    [0, 900000000], or a sub-seed of its decomposition is outside its band
    ([i], [j], [k] in [1, 178], [l] in [0, 168]), or [i = j = k = 1]; and
    for every seed in [0, 900000000] it returns normally. *)
Theorem initialise_seed_domain (g : Uni.rng) (seed : Z) :
  (Uni.initialise g seed = None <-> seed_rejected seed) /\
  (0 <= seed <= 900000000 -> exists g', Uni.initialise g seed = Some g').
Proof.
  assert (Hstart : forall i j k l, Uni.start g i j k l <> None).
  { intros i j k l H. destruct (start_spec g i j k l) as (g' & Hs & _).
    rewrite Hs in H. discriminate H. }
  assert (Hiff : Uni.initialise g seed = None <-> seed_rejected seed).
  { unfold seed_rejected, Uni.initialise.
    destruct (Z.ltb_spec seed 0), (Z.ltb_spec 900000000 seed);
      cbv beta iota delta [orb].
    1-3: split; intro Hx; [lia|reflexivity].
    destruct (Uni.decompose seed) as [[[i j] k] l]. cbv beta iota.
    destruct (Z.leb_spec i 0), (Z.ltb_spec 178 i),
             (Z.leb_spec j 0), (Z.ltb_spec 178 j),
             (Z.leb_spec k 0), (Z.ltb_spec 178 k),
             (Z.ltb_spec l 0), (Z.ltb_spec 168 l),
             (Z.eqb_spec i 1), (Z.eqb_spec j 1), (Z.eqb_spec k 1);
      cbv beta iota delta [orb andb].
    all: split; intro Hx;
      lazymatch goal with
      | |- None = None => reflexivity
      | Hy : Uni.start _ _ _ _ _ = None |- _ => exfalso; exact (Hstart _ _ _ _ Hy)
      | |- Uni.start _ _ _ _ _ = None => exfalso; lia
      | |- _ => lia
      end. }
  split; [exact Hiff|]. intro Hs.
  assert (Hn : ~ seed_rejected seed).
  { unfold seed_rejected.
    pose proof (SeedFacts.decompose_bounds seed ltac:(lia)) as Hb.
    destruct (Uni.decompose seed) as [[[i j] k] l]. lia. }
  destruct (Uni.initialise g seed) as [g'|] eqn:E; [exists g'; reflexivity|].
  exfalso. apply Hn. apply Hiff. reflexivity.
Qed.

(** Claim C5.  [crooks_fluctuation_theorem(terms, coefficient, exponent,
    time)] is the [f64] sum, accumulated from [i = 1] up to [i = terms] and
    starting from [0.0], of [(coefficient * (sin(2 PI i + time) /
    cosh(2 PI i + time))).powf(exponent)]; the function is total, so a NaN or
    infinite contribution is carried into the result, not reported. *)
Theorem crooks_is_series_sum sin cosh powf (terms : nat)
    (coefficient exponent time : F64.t) :
  Series.crooks_fluctuation_theorem sin cosh powf terms coefficient exponent time =
  Series.series_sum sin cosh powf terms coefficient exponent time.
Proof.
  unfold Series.crooks_fluctuation_theorem, Series.series_sum.
  apply sum_loop_fold.
Qed.

(** Claim C6.  For all [f64] inputs (in particular [n] in [0, 1] and the
    factors in [0, 1)), each channel byte of the colour mapping lies in
    [0, 255]; the [as u8] conversion saturates: for a finite value it is the
    truncation toward zero clamped to [0, 255], never a value modulo 256. *)
Theorem channels_saturate :
  (forall n r g b,
     let '(red, green, blue) := Colour.pixel_rgb n r g b in
     0 <= red <= 255 /\ 0 <= green <= 255 /\ 0 <= blue <= 255) /\
  (forall x z, Colour.trunc x = Some z -> Colour.as_u8 x = Colour.clamp_u8 z).
Proof.
  split.
  - intros n r g b. cbv beta zeta iota delta [Colour.pixel_rgb].
    split; [|split]; apply as_u8_range.
  - intros x z H. destruct x as [s|s| |s m e]; cbn [Colour.trunc] in H;
      try discriminate H; injection H as <-.
    + reflexivity.
    + pose proof (Z.shiftl_nonneg (Zpos m) e) as Hn.
      assert (0 <= Z.shiftl (Zpos m) e) by (apply Hn; lia).
      unfold Colour.clamp_u8. destruct s; cbn [Colour.as_u8 cond_Zopp]; lia.
Qed.

(** Claim C7.  Two generators that agree on slot 0, in particular two
    generators built by [new()], initialised with the same seed, produce the
    same [n] draws, bit for bit (or both panic). *)
Theorem same_seed_same_draws (g1 g2 : Uni.rng) (seed : Z) (n : nat) :
  Uni.recent_values g1 0%nat = Uni.recent_values g2 0%nat ->
  run g1 seed n = run g2 seed n.
Proof.
  intro H. unfold run.
  pose proof (Determinism.initialise_same g1 g2 seed H) as Hs.
  destruct (Uni.initialise g1 seed) as [a|], (Uni.initialise g2 seed) as [b|];
    try contradiction; cbv beta iota; [|reflexivity].
  apply Determinism.draws_same. exact Hs.
Qed.

Lemma same_seed_same_draws_witness :
  run Uni.new 54321 10 = run g12345 54321 10.
Proof.
  apply (same_seed_same_draws Uni.new g12345 54321 10).
  vm_compute. reflexivity.
Defined.

(** Claim C8.  In every reachable state both cursors index the buffer, so
    the reads [recent_values[current_index]] and
    [recent_values[second_index]] are in bounds, and [generate] returns
    normally (it does not panic); its only effect is the new generator
    state it returns. *)
Theorem generate_never_fails (g : Uni.rng) :
  Uni.reachable g ->
  (Uni.current_index g < Uni.LEN_U)%nat /\ (Uni.second_index g < Uni.LEN_U)%nat /\
  Uni.get (Uni.recent_values g) (Uni.current_index g) =
    Some (Uni.recent_values g (Uni.current_index g)) /\
  Uni.get (Uni.recent_values g) (Uni.second_index g) =
    Some (Uni.recent_values g (Uni.second_index g)) /\
  exists g' v, Uni.generate g = Some (g', v).
Proof.
  intro Hr. pose proof (reachable_inv g Hr) as Hinv.
  pose proof Hinv as [_ _ _ _ Hcur Hsec].
  unfold Uni.LEN_U.
  split; [exact Hcur|]. split; [exact Hsec|].
  split; [apply get_ok; exact Hcur|]. split; [apply get_ok; exact Hsec|].
  destruct (generate_inv g Hinv) as (g' & v & Hg & _).
  exists g', v. exact Hg.
Qed.

Lemma generate_never_fails_witness :
  (Uni.current_index g12345 < Uni.LEN_U)%nat /\
  (Uni.second_index g12345 < Uni.LEN_U)%nat /\
  Uni.get (Uni.recent_values g12345) (Uni.current_index g12345) =
    Some (Uni.recent_values g12345 (Uni.current_index g12345)) /\
  Uni.get (Uni.recent_values g12345) (Uni.second_index g12345) =
    Some (Uni.recent_values g12345 (Uni.second_index g12345)) /\
  exists g' v, Uni.generate g12345 = Some (g', v).
Proof.
  apply (generate_never_fails g12345).
  apply (Uni.reachable_init 12345). vm_compute. reflexivity.
Defined.

(** Claim C9.  [start] leaves slot 0 of the buffer unchanged (it writes
    slots 1 to 97 only); hence after [new()] and a successful
    [initialise(seed)] slot 0 holds [0.0]; and a cursor does reach slot 0:
    after [initialise(12345)] and 33 draws the second cursor is 0, so the
    next draw reads slot 0. *)
Theorem start_keeps_slot_zero :
  (forall g a b c d g', Uni.start g a b c d = Some g' ->
     Uni.recent_values g' 0%nat = Uni.recent_values g 0%nat) /\
  (forall seed g', Uni.initialise Uni.new seed = Some g' ->
     Uni.recent_values g' 0%nat = F32.zero) /\
  (exists g, Uni.reachable g /\ Uni.second_index g = 0%nat).
Proof.
  assert (Hst : forall g a b c d g', Uni.start g a b c d = Some g' ->
            Uni.recent_values g' 0%nat = Uni.recent_values g 0%nat).
  { intros g a b c d g' H.
    destruct (start_spec g a b c d) as (g'' & Hs & H0 & _).
    rewrite Hs in H. injection H as <-. exact H0. }
  split; [exact Hst|]. split.
  - intros seed g' H.
    destruct (initialise_start _ _ _ H) as (i & j & k & l & Hs).
    exact (Hst _ _ _ _ _ _ Hs).
  - exists (match states 33 g12345 with Some g => g | None => Uni.new end).
    split.
    + apply (states_reachable 33 g12345).
      * apply (Uni.reachable_init 12345). vm_compute. reflexivity.
      * vm_compute. reflexivity.
    + vm_compute. reflexivity.
Qed.

(** Claim C10.  With no terms the series is the empty sum [+0.0] whatever
    the coefficient, exponent and time; and the model is a function of its
    arguments (and of the libm functions), so equal arguments give
    bit-identical results. *)
Theorem crooks_empty_and_deterministic :
  (forall sin cosh powf coefficient exponent time,
     Series.crooks_fluctuation_theorem sin cosh powf 0 coefficient exponent time
     = F64.zero) /\
  (forall sin cosh powf terms terms' c c' e e' p p',
     terms = terms' -> c = c' -> e = e' -> p = p' ->
     Series.crooks_fluctuation_theorem sin cosh powf terms c e p =
     Series.crooks_fluctuation_theorem sin cosh powf terms' c' e' p').
Proof.
  split.
  - intros. reflexivity.
  - intros. subst. reflexivity.
Qed.

End Claims.

(** ** Further facts about the generator *)

Module GenFacts.
Import Grid Exact UniFacts Runs RunFacts.

(** [generate] on a state whose cursors index the array, unfolded in the
    hypothesis [Hg : Uni.generate g = Some (g', v)]. *)
Ltac unfold_generate Hg Estate Evalue :=
  unfold Uni.generate in Hg; rewrite !get_ok in Hg by assumption;
  cbv beta iota zeta in Hg; rewrite set_ok in Hg by assumption;
  cbv beta iota in Hg; injection Hg as Estate Evalue.

(** [n] draws from a reachable state all succeed and move each cursor back
    by [n] modulo 98. *)
Lemma states_cursors (n : nat) :
  forall g, Uni.reachable g ->
  exists g', states n g = Some g' /\ Uni.reachable g' /\
    Uni.current_index g' = ((Uni.current_index g + n * 97) mod 98)%nat /\
    Uni.second_index g' = ((Uni.second_index g + n * 97) mod 98)%nat.
Proof.
  induction n as [|n IH]; intros g Hr.
  - pose proof (reachable_inv g Hr) as [_ _ _ _ Hcur Hsec].
    exists g. split; [reflexivity|]. split; [exact Hr|].
    rewrite !Nat.add_0_r, !Nat.mod_small by assumption.
    split; reflexivity.
  - pose proof (reachable_inv g Hr) as Hinv.
    pose proof Hinv as [_ _ _ _ Hcur Hsec].
    destruct (generate_inv g Hinv) as (g1 & v & Hg & _).
    destruct (generate_cursors g g1 v Hinv Hg) as [Hc1 Hs1].
    destruct (IH g1 (Uni.reachable_step g g1 v Hr Hg))
      as (g' & Hst & Hr' & Hc' & Hs').
    exists g'. cbn [states]. rewrite Hg. cbv beta iota.
    split; [exact Hst|]. split; [exact Hr'|].
    rewrite Hc', Hs', Hc1, Hs1, !step_index_mod by assumption.
    rewrite !Nat.Div0.add_mod_idemp_l. split; f_equal; lia.
Qed.

(** One correction update on the grid: [c - delta], plus [modulus] when
    negative, is [(c - 7654321) mod 16777213] units of 2^-24. *)
Lemma corr_step (x : F32.t) (c : Z) :
  grid x c -> 0 <= c < 16777213 ->
  grid (if F32.ltb (F32.sub x c_delta) F32.zero
        then F32.add (F32.sub x c_delta) c_modulus
        else F32.sub x c_delta) ((c - 7654321) mod 16777213) /\
  0 <= (c - 7654321) mod 16777213 < 16777213.
Proof.
  intros Hx Hc.
  assert (Hs : grid (F32.sub x c_delta) (c - 7654321)).
  { apply grid_sub; [exact Hx | exact c_delta_grid |].
    change (2 ^ 24) with 16777216. lia. }
  rewrite (grid_ltb_zero _ _ Hs).
  split; [|apply Z.mod_pos_bound; lia].
  destruct (Z.ltb_spec (c - 7654321) 0).
  - replace ((c - 7654321) mod 16777213) with (c - 7654321 + 16777213)
      by (Z.div_mod_to_equations; lia).
    apply grid_add; [exact Hs | exact c_modulus_grid |].
    change (2 ^ 24) with 16777216. lia.
  - replace ((c - 7654321) mod 16777213) with (c - 7654321)
      by (Z.div_mod_to_equations; lia).
    exact Hs.
Qed.

(** The correction after [n] draws from a reachable state holding the
    grid correction [c]. *)
Lemma states_correction (n : nat) :
  forall g g' c, Uni.reachable g -> grid (Uni.correction g) c ->
  0 <= c < 16777213 -> states n g = Some g' ->
  grid (Uni.correction g') ((c - 7654321 * Z.of_nat n) mod 16777213).
Proof.
  induction n as [|n IH]; intros g g' c Hr Hc Hb Hst.
  - injection Hst as <-. rewrite Z.mul_0_r, Z.sub_0_r, Z.mod_small by lia.
    exact Hc.
  - pose proof (reachable_inv g Hr) as Hinv.
    pose proof Hinv as [_ _ Hd Hm Hcur Hsec].
    destruct (generate_inv g Hinv) as (g1 & v & Hg & _).
    cbn [states] in Hst. rewrite Hg in Hst. cbv beta iota in Hst.
    assert (Hc1 : grid (Uni.correction g1) ((c - 7654321) mod 16777213) /\
                  0 <= (c - 7654321) mod 16777213 < 16777213).
    { pose proof Hg as Hg1. unfold_generate Hg1 Eg Ev.
      rewrite <- Eg. cbn [Uni.correction]. rewrite Hd, Hm.
      exact (corr_step _ _ Hc Hb). }
    destruct Hc1 as [Hc1 Hb1].
    specialize (IH _ g' _ (Uni.reachable_step g _ v Hr Hg) Hc1 Hb1 Hst).
    rewrite Zminus_mod_idemp_l in IH.
    replace (c - 7654321 * Z.of_nat (S n))
      with (c - 7654321 - 7654321 * Z.of_nat n) by lia.
    exact IH.
Qed.

End GenFacts.

(** ** Further facts about [initialise] *)

Module InitFacts.
Import UniFacts.

(** the decomposition of an in-range seed loses nothing *)
Lemma decompose_round_trip (seed : Z) :
  0 <= seed <= 900000000 ->
  let '(i, j, k, l) := Uni.decompose seed in
  30082 * (177 * (i - 2) + (j - 2)) + 169 * (k - 1) + l = seed.
Proof.
  intro H. unfold Uni.decompose.
  assert (Hkl : seed - 30082 * Z.quot seed 30082 = Z.rem seed 30082)
    by (rewrite Z.rem_eq by lia; reflexivity).
  rewrite Hkl.
  assert (Hq : 0 <= seed / 30082) by (apply Z.div_pos; lia).
  assert (Hr : 0 <= seed mod 30082) by (apply Z.mod_pos_bound; lia).
  rewrite (Z.quot_div_nonneg seed 30082), (Z.rem_mod_nonneg seed 30082) by lia.
  assert (Hq1 : 0 <= seed / 30082 / 177) by (apply Z.div_pos; lia).
  assert (Hr1 : 0 <= seed mod 30082 / 169) by (apply Z.div_pos; lia).
  rewrite (Z.quot_div_nonneg (seed / 30082) 177),
          (Z.rem_mod_nonneg (seed / 30082) 177),
          (Z.rem_mod_nonneg (seed / 30082 / 177) 177),
          (Z.quot_div_nonneg (seed mod 30082) 169),
          (Z.rem_mod_nonneg (seed mod 30082) 169),
          (Z.rem_mod_nonneg (seed mod 30082 / 169) 178) by lia.
  Z.div_mod_to_equations. lia.
Qed.

Lemma initialise_some (g : Uni.rng) (seed : Z) :
  0 <= seed <= 900000000 -> exists g', Uni.initialise g seed = Some g'.
Proof.
  intro H. pose proof (SeedFacts.decompose_bounds seed (proj1 H)) as Hb.
  unfold Uni.initialise.
  replace ((seed <? 0) || (900000000 <? seed)) with false
    by (symmetry; apply orb_false_iff; split; apply Z.ltb_ge; lia).
  destruct (Uni.decompose seed) as [[[i j] k] l].
  destruct Hb as (Hi & Hj & Hk & Hl). cbv beta iota.
  replace ((i <=? 0) || (178 <? i)) with false
    by (symmetry; apply orb_false_iff; split; [apply Z.leb_gt | apply Z.ltb_ge]; lia).
  replace ((j <=? 0) || (178 <? j)) with false
    by (symmetry; apply orb_false_iff; split; [apply Z.leb_gt | apply Z.ltb_ge]; lia).
  replace ((k <=? 0) || (178 <? k)) with false
    by (symmetry; apply orb_false_iff; split; [apply Z.leb_gt | apply Z.ltb_ge]; lia).
  replace ((l <? 0) || (168 <? l)) with false
    by (symmetry; apply orb_false_iff; split; apply Z.ltb_ge; lia).
  replace ((i =? 1) && (j =? 1) && (k =? 1)) with false
    by (rewrite (proj2 (Z.eqb_neq i 1)) by lia; reflexivity).
  destruct (start_spec g i j k l) as (g' & Hs & _).
  exists g'. exact Hs.
Qed.

End InitFacts.

(** ** Facts about the frame of [main] *)

Module FrameFacts.
Import Frame.

Lemma shl32_small (a n : Z) :
  0 <= a -> 0 <= n -> a * 2 ^ n < 2 ^ 32 -> shl32 a n = a * 2 ^ n.
Proof.
  intros Ha Hn Hlt. unfold shl32.
  rewrite Z.land_ones, Z.shiftl_mul_pow2 by lia.
  apply Z.mod_small. split; [|exact Hlt].
  apply Z.mul_nonneg_nonneg; [exact Ha | apply Z.pow_nonneg; lia].
Qed.

(** an [or] of bit fields that do not overlap is their sum *)
Lemma lor_disjoint (a b k : Z) :
  0 <= k -> 0 <= b < 2 ^ k -> Z.lor (a * 2 ^ k) b = a * 2 ^ k + b.
Proof.
  intros Hk Hb.
  assert (Hland : Z.land (a * 2 ^ k) b = 0).
  { rewrite <- Z.shiftl_mul_pow2 by exact Hk.
    apply Z.bits_inj'. intros n Hn. rewrite Z.land_spec, Z.bits_0.
    destruct (Z.lt_ge_cases n k).
    - rewrite Z.shiftl_spec_low by lia. reflexivity.
    - rewrite <- (Z.mod_small b (2 ^ k)) by lia.
      rewrite Z.mod_pow2_bits_high by lia. apply andb_false_r. }
  rewrite (Z.add_nocarry_lxor _ _ Hland).
  apply Z.bits_inj'. intros n Hn.
  rewrite Z.lor_spec, Z.lxor_spec.
  assert (Hbit := f_equal (fun z => Z.testbit z n) Hland).
  cbn beta in Hbit. rewrite Z.land_spec, Z.bits_0 in Hbit.
  destruct (Z.testbit (a * 2 ^ k) n), (Z.testbit b n); try reflexivity.
  discriminate Hbit.
Qed.

Lemma colour_sum (r g b : Z) :
  0 <= r <= 255 -> 0 <= g <= 255 -> 0 <= b <= 255 ->
  colour (r, g, b) = r * 65536 + g * 256 + b.
Proof.
  intros Hr Hg Hb. unfold colour.
  rewrite (shl32_small r 16), (shl32_small g 8) by (cbn; lia).
  rewrite <- Z.lor_assoc.
  rewrite (lor_disjoint g b 8) by (cbn; lia).
  rewrite (lor_disjoint r (g * 2 ^ 8 + b) 16) by (cbn; lia).
  cbn. lia.
Qed.

Section Cells.
Local Open Scope nat_scope.

Lemma map_add_seq (k s n : nat) :
  map (fun x => k + x) (seq s n) = seq (k + s) n.
Proof.
  revert s. induction n as [|n IH]; intro s; [reflexivity|].
  cbn [seq map]. rewrite IH. f_equal. f_equal. lia.
Qed.

(** the cells the enumeration of [h] rows of width [w] addresses *)
Lemma map_index_rows (w a h : nat) :
  map (fun p => snd p * w + fst p)
      (flat_map (fun y => map (fun x => (x, y)) (seq 0 w)) (seq a h)) =
  seq (a * w) (h * w).
Proof.
  revert a. induction h as [|h IH]; intro a; [reflexivity|].
  cbn [seq flat_map]. rewrite map_app, map_map. cbn [fst snd].
  rewrite map_add_seq, IH, Nat.add_0_r.
  replace (S h * w) with (w + h * w) by lia.
  rewrite seq_app. f_equal. f_equal. lia.
Qed.

Lemma copy_fold (image : nat -> nat -> Z * Z * Z) (L : list (nat * nat)) :
  forall buffer,
  (forall p, In p L -> (snd p * WIDTH + fst p < WIDTH * HEIGHT)%nat) ->
  NoDup (map (fun p => snd p * WIDTH + fst p) L) ->
  exists buffer',
    fold_left (copy_step image) L (Some buffer) = Some buffer' /\
    (forall p, In p L ->
       buffer' (snd p * WIDTH + fst p) = colour (image (fst p) (snd p))) /\
    (forall k, ~ In k (map (fun p => snd p * WIDTH + fst p) L) ->
       buffer' k = buffer k).
Proof.
  induction L as [|[x y] L IH]; intros buffer Hin Hnd.
  - exists buffer. split; [reflexivity|]. split; [intros p []|].
    intros k _. reflexivity.
  - cbn [fold_left copy_step]. unfold buffer_set.
    assert (Hlt := Hin (x, y) (or_introl eq_refl)). cbn [fst snd] in Hlt.
    apply Nat.ltb_lt in Hlt. rewrite Hlt. cbv beta iota.
    cbn [map fst snd] in Hnd. apply NoDup_cons_iff in Hnd as [Hnot Hnd].
    destruct (IH (fun j => if Nat.eqb j (y * WIDTH + x)
                           then colour (image x y) else buffer j)
                 (fun p Hp => Hin p (or_intror Hp)) Hnd)
      as (buffer' & Hf & Hw & Hfr).
    exists buffer'. split; [exact Hf|]. split.
    + intros p [<-|Hp].
      * cbn [fst snd]. rewrite Hfr by exact Hnot.
        rewrite Nat.eqb_refl. reflexivity.
      * apply Hw. exact Hp.
    + intros k Hk. cbn [map fst snd] in Hk.
      rewrite Hfr by (intro H; apply Hk; right; exact H).
      destruct (Nat.eqb_spec k (y * WIDTH + x)) as [->|]; [|reflexivity].
      exfalso. apply Hk. left. reflexivity.
Qed.

End Cells.

(** a NaN accumulator stays NaN *)
Lemma add_nan_r (x : F64.t) : F64.add x S754_nan = S754_nan.
Proof. destruct x; reflexivity. Qed.

Lemma fold_nan (f : nat -> F64.t) (l : list nat) :
  fold_left (fun acc i => F64.add acc (f i)) l S754_nan = S754_nan.
Proof. induction l as [|a l IH]; [reflexivity|]. exact IH. Qed.

Lemma fold_nan_in (f : nat -> F64.t) (l : list nat) (i : nat) :
  In i l -> f i = S754_nan ->
  forall acc, fold_left (fun acc i => F64.add acc (f i)) l acc = S754_nan.
Proof.
  intros Hin Hf. induction l as [|a l IH]; [destruct Hin|]. intro acc.
  cbn [fold_left]. destruct Hin as [->|Hin].
  - rewrite Hf, add_nan_r. apply fold_nan.
  - apply IH. exact Hin.
Qed.

(** a channel whose random factor is zero is 0 *)
Lemma channel_zero (x : F64.t) (s : bool) :
  Colour.as_u8 (F64.mul (F64.mul x (S754_zero s)) Colour.c255) = 0.
Proof. destruct x; reflexivity. Qed.

End FrameFacts.

(** ** Properties of the rest of the code *)

Module Extras.
Import Grid Exact UniFacts Runs RunFacts GenFacts InitFacts Frame FrameFacts.

(** Extra X1.  The seed decomposition of [initialise] loses nothing on
    [0, 900000000]: the seed is [30082 * (177 * (i-2) + (j-2)) + 169 *
    (k-1) + l], so distinct seeds give distinct sub-seeds. *)
Theorem decompose_injective :
  (forall seed, 0 <= seed <= 900000000 ->
     let '(i, j, k, l) := Uni.decompose seed in
     30082 * (177 * (i - 2) + (j - 2)) + 169 * (k - 1) + l = seed) /\
  (forall s1 s2, 0 <= s1 <= 900000000 -> 0 <= s2 <= 900000000 ->
     Uni.decompose s1 = Uni.decompose s2 -> s1 = s2).
Proof.
  split; [exact decompose_round_trip|].
  intros s1 s2 H1 H2 E.
  pose proof (decompose_round_trip s1 H1) as R1.
  pose proof (decompose_round_trip s2 H2) as R2.
  rewrite E in R1. destruct (Uni.decompose s2) as [[[i j] k] l].
  cbv beta iota in R1, R2. lia.
Qed.

(** Extra X2.  [initialise] panics exactly when the seed is outside
    [0, 900000000]: the checks on the sub-seeds never fire. *)
Theorem initialise_none_iff_out_of_range (g : Uni.rng) (seed : Z) :
  Uni.initialise g seed = None <-> seed < 0 \/ 900000000 < seed.
Proof.
  split.
  - intro H. destruct (Z_lt_le_dec seed 0); [left; exact l|].
    destruct (Z_lt_le_dec 900000000 seed); [right; exact l0|].
    destruct (initialise_some g seed) as (g' & Hs); [lia|].
    rewrite Hs in H. discriminate H.
  - unfold Uni.initialise.
    intros [H|H]; apply Z.ltb_lt in H; rewrite H; [|rewrite orb_true_r];
      reflexivity.
Qed.

(** Extra X3.  For the sub-seeds [initialise] passes ([1 <= i, j, k <= 178],
    [0 <= l <= 168], where no [i32] product overflows), [start] returns
    normally; it fills slots 1 to 97 with multiples of 2^-24 in [0, 1),
    keeps slot 0, and sets the cursors to 97 and 33. *)
Theorem start_fills_slots (g : Uni.rng) (i j k l : Z) :
  1 <= i <= 178 -> 1 <= j <= 178 -> 1 <= k <= 178 -> 0 <= l <= 168 ->
  exists g', Uni.start g i j k l = Some g' /\
    (forall n, (1 <= n <= 97)%nat ->
       exists a, 0 <= a < 2 ^ 24 /\ grid (Uni.recent_values g' n) a) /\
    Uni.recent_values g' 0%nat = Uni.recent_values g 0%nat /\
    Uni.current_index g' = 97%nat /\ Uni.second_index g' = 33%nat.
Proof.
  intros _ _ _ _.
  destruct (start_spec g i j k l)
    as (g' & Hs & H0 & _ & Hsl & _ & _ & _ & Hcur & Hsec).
  exists g'. split; [exact Hs|]. split.
  - intros n Hn. destruct (Hsl n ltac:(lia)) as (a & Ha & Hab).
    exists a. split; [exact Hab | exact Ha].
  - split; [exact H0|]. split; [exact Hcur | exact Hsec].
Qed.

Lemma start_fills_slots_witness :
  exists g', Uni.start Uni.new 2 3 4 5 = Some g' /\
    (forall n, (1 <= n <= 97)%nat ->
       exists a, 0 <= a < 2 ^ 24 /\ grid (Uni.recent_values g' n) a) /\
    Uni.recent_values g' 0%nat = Uni.recent_values Uni.new 0%nat /\
    Uni.current_index g' = 97%nat /\ Uni.second_index g' = 33%nat.
Proof.
  apply (start_fills_slots Uni.new 2 3 4 5); lia.
Defined.

(** Extra X4.  A call of [generate] on a reachable state writes only the
    slot under the current cursor, with a value in [0, 1); every other
    slot, [correction_delta] and [correction_modulus] are unchanged. *)
Theorem generate_frame (g g' : Uni.rng) (v : F32.t) :
  Uni.reachable g -> Uni.generate g = Some (g', v) ->
  (forall j, j <> Uni.current_index g ->
     Uni.recent_values g' j = Uni.recent_values g j) /\
  Uni.correction_delta g' = Uni.correction_delta g /\
  Uni.correction_modulus g' = Uni.correction_modulus g /\
  F32.leb F32.zero (Uni.recent_values g' (Uni.current_index g)) = true /\
  F32.ltb (Uni.recent_values g' (Uni.current_index g)) F32.one = true.
Proof.
  intros Hr Hg. pose proof (reachable_inv g Hr) as Hinv.
  pose proof Hinv as [_ _ _ _ Hcur Hsec].
  assert (Hfr : (forall j, j <> Uni.current_index g ->
                   Uni.recent_values g' j = Uni.recent_values g j) /\
                Uni.correction_delta g' = Uni.correction_delta g /\
                Uni.correction_modulus g' = Uni.correction_modulus g).
  { pose proof Hg as Hg2. unfold_generate Hg2 Eg Ev. rewrite <- Eg.
    cbn [Uni.recent_values Uni.correction_delta Uni.correction_modulus].
    split; [|split; reflexivity].
    intros j Hj. apply Nat.eqb_neq in Hj. rewrite Hj. reflexivity. }
  destruct (generate_inv g Hinv) as (g1 & v1 & Hg1 & Hinv1 & _).
  rewrite Hg in Hg1. injection Hg1 as <- <-.
  destruct (inv_slots g' Hinv1 _ Hcur) as (a & Ha & Hab).
  destruct (grid_unit_range _ a Ha Hab) as [Hlo Hhi].
  destruct Hfr as (Hfr & Hd & Hm).
  split; [exact Hfr|]. split; [exact Hd|]. split; [exact Hm|].
  split; [exact Hlo | exact Hhi].
Qed.

Lemma generate_frame_witness :
  let g' := match Uni.generate g12345 with Some (g', _) => g' | None => Uni.new end in
  (forall j, j <> Uni.current_index g12345 ->
     Uni.recent_values g' j = Uni.recent_values g12345 j) /\
  Uni.correction_delta g' = Uni.correction_delta g12345 /\
  Uni.correction_modulus g' = Uni.correction_modulus g12345 /\
  F32.leb F32.zero (Uni.recent_values g' (Uni.current_index g12345)) = true /\
  F32.ltb (Uni.recent_values g' (Uni.current_index g12345)) F32.one = true.
Proof.
  apply (generate_frame g12345 _
           (match Uni.generate g12345 with Some (_, v) => v | None => F32.zero end)).
  - apply (Uni.reachable_init 12345). vm_compute. reflexivity.
  - vm_compute. reflexivity.
Defined.

(** Extra X5.  Every value [generate] returns from a reachable state is an
    exact multiple of 2^-24, [a * 2^-24] with [0 <= a < 2^24]. *)
Theorem draw_on_grid (g g' : Uni.rng) (v : F32.t) :
  Uni.reachable g -> Uni.generate g = Some (g', v) ->
  exists a, 0 <= a < 2 ^ 24 /\ grid v a.
Proof.
  intros Hr Hg.
  destruct (generate_inv g (reachable_inv g Hr)) as (g1 & v1 & Hg1 & _ & a & Ha & Hab).
  rewrite Hg in Hg1. injection Hg1 as <- <-.
  exists a. split; [exact Hab | exact Ha].
Qed.

Lemma draw_on_grid_witness :
  exists a, 0 <= a < 2 ^ 24 /\
    grid (match Uni.generate g12345 with Some (_, v) => v | None => F32.zero end) a.
Proof.
  apply (draw_on_grid g12345
           (match Uni.generate g12345 with Some (g', _) => g' | None => Uni.new end)).
  - apply (Uni.reachable_init 12345). vm_compute. reflexivity.
  - vm_compute. reflexivity.
Defined.

(** Extra X6.  In every reachable state the current cursor is 64 slots
    ahead of the second one, modulo 98: [start] sets them to 97 and 33 and
    each [generate] moves both by the same step. *)
Theorem cursor_gap (g : Uni.rng) :
  Uni.reachable g ->
  Uni.current_index g = ((Uni.second_index g + 64) mod 98)%nat.
Proof.
  induction 1 as [seed g Hi | g g' v Hr IH Hg].
  - destruct (initialise_start _ _ _ Hi) as (i & j & k & l & Hs).
    destruct (start_spec Uni.new i j k l)
      as (g1 & Hs1 & _ & _ & _ & _ & _ & _ & Hcur & Hsec).
    rewrite Hs in Hs1. injection Hs1 as <-.
    rewrite Hcur, Hsec. reflexivity.
  - pose proof (reachable_inv g Hr) as Hinv.
    pose proof Hinv as [_ _ _ _ Hcur Hsec].
    destruct (generate_cursors g g' v Hinv Hg) as [Hc Hs].
    rewrite Hc, Hs, !step_index_mod by assumption. rewrite IH.
    rewrite !Nat.Div0.add_mod_idemp_l. f_equal. lia.
Qed.

Lemma cursor_gap_witness :
  Uni.current_index g12345 = ((Uni.second_index g12345 + 64) mod 98)%nat.
Proof.
  apply (cursor_gap g12345). apply (Uni.reachable_init 12345).
  vm_compute. reflexivity.
Defined.

(** Extra X7.  From a reachable state, 98 further calls of [generate] all
    succeed and bring both cursors back to where they were: the cursors
    cycle with period 98. *)
Theorem cursor_period (g : Uni.rng) :
  Uni.reachable g ->
  exists g', states 98 g = Some g' /\
    Uni.current_index g' = Uni.current_index g /\
    Uni.second_index g' = Uni.second_index g.
Proof.
  intro Hr. pose proof (reachable_inv g Hr) as [_ _ _ _ Hcur Hsec].
  destruct (states_cursors 98 g Hr) as (g' & Hst & _ & Hc & Hs).
  exists g'. split; [exact Hst|]. rewrite Hc, Hs.
  split; symmetry; apply (Nat.mod_unique _ 98 97); lia.
Qed.

Lemma cursor_period_witness :
  exists g', states 98 g12345 = Some g' /\
    Uni.current_index g' = Uni.current_index g12345 /\
    Uni.second_index g' = Uni.second_index g12345.
Proof.
  apply (cursor_period g12345). apply (Uni.reachable_init 12345).
  vm_compute. reflexivity.
Defined.

(** Extra X8.  After [initialise] and [n] calls of [generate], the
    correction term is exactly [((362436 - 7654321 * n) mod 16777213) *
    2^-24]: the [f32] subtraction and wrap-around never round. *)
Theorem correction_closed_form (seed : Z) (n : nat) (g g' : Uni.rng) :
  Uni.initialise Uni.new seed = Some g -> states n g = Some g' ->
  grid (Uni.correction g') ((362436 - 7654321 * Z.of_nat n) mod 16777213).
Proof.
  intros Hi Hst.
  destruct (initialise_start _ _ _ Hi) as (i & j & k & l & Hs).
  destruct (start_spec Uni.new i j k l)
    as (g1 & Hs1 & _ & _ & _ & Hc & _).
  rewrite Hs in Hs1. injection Hs1 as <-.
  apply (states_correction n g g' 362436 (Uni.reachable_init seed g Hi));
    [|lia|exact Hst].
  rewrite Hc. exact c_init_grid.
Qed.

Lemma correction_closed_form_witness :
  grid (Uni.correction
          (match states 5 g12345 with Some g' => g' | None => Uni.new end))
       ((362436 - 7654321 * Z.of_nat 5) mod 16777213).
Proof.
  apply (correction_closed_form 12345 5 g12345); vm_compute; reflexivity.
Defined.

(** Extra X9.  [crooks_fluctuation_theorem] with [terms + 1] terms is the
    [f64] sum with [terms] terms plus the next contribution, added last. *)
Theorem crooks_step sin cosh powf (n : nat) (c e t : F64.t) :
  Series.crooks_fluctuation_theorem sin cosh powf (S n) c e t =
  F64.add (Series.crooks_fluctuation_theorem sin cosh powf n c e t)
          (Series.contribution sin cosh powf c e t (S n)).
Proof.
  unfold Series.crooks_fluctuation_theorem. rewrite !sum_loop_fold.
  rewrite seq_S, fold_left_app. reflexivity.
Qed.

(** Extra X10.  If one term [i] in [1, terms] of the series is NaN, the
    whole sum [crooks_fluctuation_theorem] is NaN. *)
Theorem crooks_nan sin cosh powf (n i : nat) (c e t : F64.t) :
  (1 <= i <= n)%nat ->
  Series.contribution sin cosh powf c e t i = S754_nan ->
  Series.crooks_fluctuation_theorem sin cosh powf n c e t = S754_nan.
Proof.
  intros Hi Hn. unfold Series.crooks_fluctuation_theorem.
  rewrite sum_loop_fold. apply (fold_nan_in _ _ i); [|exact Hn].
  apply in_seq. lia.
Qed.

Lemma crooks_nan_witness :
  Series.crooks_fluctuation_theorem (fun x => x) (fun x => x)
    (fun _ _ => S754_nan) 3 F64.zero F64.zero F64.zero = S754_nan.
Proof.
  apply (crooks_nan _ _ _ 3 2); [lia | reflexivity].
Defined.

(** Extra X11.  The colour mapping is black where its inputs carry no
    signal: a NaN [normalized_value] gives [(0, 0, 0)], and a zero random
    factor gives 0 in its own channel whatever the other inputs. *)
Theorem pixel_rgb_zeros :
  (forall r g b, Colour.pixel_rgb S754_nan r g b = (0, 0, 0)) /\
  (forall n g b s, fst (fst (Colour.pixel_rgb n (S754_zero s) g b)) = 0) /\
  (forall n r b s, snd (fst (Colour.pixel_rgb n r (S754_zero s) b)) = 0) /\
  (forall n r g s, snd (Colour.pixel_rgb n r g (S754_zero s)) = 0).
Proof.
  split; [intros; reflexivity|].
  split; [|split]; intros;
    cbv beta zeta delta [Colour.pixel_rgb]; cbn [fst snd]; apply channel_zero.
Qed.

(** Extra X12.  The per-pixel closure of [main], run on a reachable
    generator, never panics: it draws exactly three values, leaves the
    generator in the state of three [generate] calls, and that state is
    again reachable (for any [sin], [cosh] and [powf]). *)
Theorem pixel_safe sin cosh powf (g : Uni.rng) (time : F64.t) (x y : nat) :
  Uni.reachable g ->
  exists g' rgb, pixel sin cosh powf g time x y = Some (g', rgb) /\
    states 3 g = Some g' /\ Uni.reachable g'.
Proof.
  intro Hr.
  destruct (generate_inv g (reachable_inv g Hr)) as (g1 & v1 & H1 & _).
  pose proof (Uni.reachable_step g g1 v1 Hr H1) as Hr1.
  destruct (generate_inv g1 (reachable_inv g1 Hr1)) as (g2 & v2 & H2 & _).
  pose proof (Uni.reachable_step g1 g2 v2 Hr1 H2) as Hr2.
  destruct (generate_inv g2 (reachable_inv g2 Hr2)) as (g3 & v3 & H3 & _).
  pose proof (Uni.reachable_step g2 g3 v3 Hr2 H3) as Hr3.
  unfold pixel. rewrite H1, H2, H3.
  eexists g3, _. split; [reflexivity|]. split; [|exact Hr3].
  cbn [states]. rewrite H1, H2, H3. reflexivity.
Qed.

Lemma pixel_safe_witness :
  exists g' rgb,
    pixel (fun v => v) (fun v => v) (fun v _ => v) g12345 F64.zero 1 2
      = Some (g', rgb) /\
    states 3 g12345 = Some g' /\ Uni.reachable g'.
Proof.
  apply (pixel_safe _ _ _ g12345 F64.zero 1 2).
  apply (Uni.reachable_init 12345). vm_compute. reflexivity.
Defined.

(** Extra X13.  The packed colour [(red << 16) | (green << 8) | blue] of
    three bytes is a 24-bit value from which the shifts and masks recover
    each byte. *)
Theorem colour_round_trip (r g b : Z) :
  0 <= r <= 255 -> 0 <= g <= 255 -> 0 <= b <= 255 ->
  0 <= colour (r, g, b) < 2 ^ 24 /\
  Z.land (Z.shiftr (colour (r, g, b)) 16) 255 = r /\
  Z.land (Z.shiftr (colour (r, g, b)) 8) 255 = g /\
  Z.land (colour (r, g, b)) 255 = b.
Proof.
  intros Hr Hg Hb. rewrite (colour_sum r g b Hr Hg Hb).
  rewrite !Z.shiftr_div_pow2 by lia.
  change 255 with (Z.ones 8). rewrite !Z.land_ones by lia.
  change (2 ^ 8) with 256. change (2 ^ 16) with 65536.
  change (2 ^ 24) with 16777216.
  change (Z.ones 8) with 255 in Hr, Hg, Hb.
  repeat split; Z.div_mod_to_equations; lia.
Qed.

Lemma colour_round_trip_witness :
  0 <= colour (1, 2, 3) < 2 ^ 24 /\
  Z.land (Z.shiftr (colour (1, 2, 3)) 16) 255 = 1 /\
  Z.land (Z.shiftr (colour (1, 2, 3)) 8) 255 = 2 /\
  Z.land (colour (1, 2, 3)) 255 = 3.
Proof.
  apply (colour_round_trip 1 2 3); lia.
Defined.

Section Buffer.
Local Open Scope nat_scope.

(** Extra X14.  The buffer loop of [main] never indexes out of bounds and
    fills the whole [WIDTH * HEIGHT] buffer: cell [k] holds the packed
    colour of pixel [(k mod WIDTH, k / WIDTH)]. *)
Theorem copy_buffer_fills (image : nat -> nat -> Z * Z * Z) :
  exists buffer, copy_buffer image = Some buffer /\
    forall k, k < WIDTH * HEIGHT ->
      buffer k = colour (image (k mod WIDTH) (k / WIDTH)).
Proof.
  assert (Hmap : map (fun p => snd p * WIDTH + fst p) pixels =
                 seq 0 (WIDTH * HEIGHT)).
  { unfold pixels. rewrite map_index_rows, Nat.mul_0_l, (Nat.mul_comm HEIGHT WIDTH).
    reflexivity. }
  assert (HW : WIDTH <> 0) by (unfold WIDTH; discriminate).
  destruct (copy_fold image pixels (fun _ => 0%Z)) as (buffer & Hf & Hin & _).
  - intros p Hp. apply (in_map (fun p => snd p * WIDTH + fst p)) in Hp.
    rewrite Hmap in Hp. apply in_seq in Hp. lia.
  - rewrite Hmap. apply seq_NoDup.
  - exists buffer. split; [exact Hf|]. intros k Hk.
    assert (Hp : In (k mod WIDTH, k / WIDTH) pixels).
    { unfold pixels. apply in_flat_map. exists (k / WIDTH). split.
      - apply in_seq. split; [lia|]. cbn [Nat.add].
        apply Nat.Div0.div_lt_upper_bound. exact Hk.
      - apply (in_map (fun x => (x, k / WIDTH))). apply in_seq. split; [lia|].
        apply Nat.mod_upper_bound. exact HW. }
    specialize (Hin _ Hp). cbn [fst snd] in Hin.
    rewrite <- Hin. f_equal. rewrite Nat.mul_comm. apply Nat.div_mod_eq.
Qed.

End Buffer.

(** the state of a fresh [new()] generator is kept by [generate]: all
    slots, the correction and both constants are [+0.0], and both cursors
    index the array; the value drawn is [+0.0] *)
Lemma generate_zero (g : Uni.rng) :
  (forall i, Uni.recent_values g i = F32.zero) ->
  Uni.correction g = F32.zero -> Uni.correction_delta g = F32.zero ->
  Uni.correction_modulus g = F32.zero ->
  (Uni.current_index g < 98)%nat -> (Uni.second_index g < 98)%nat ->
  exists g', Uni.generate g = Some (g', F32.zero) /\
    (forall i, Uni.recent_values g' i = F32.zero) /\
    Uni.correction g' = F32.zero /\ Uni.correction_delta g' = F32.zero /\
    Uni.correction_modulus g' = F32.zero /\
    (Uni.current_index g' < 98)%nat /\ (Uni.second_index g' < 98)%nat.
Proof.
  intros Hv Hc Hd Hm Hcur Hsec.
  unfold Uni.generate. rewrite !get_ok by assumption.
  cbv beta iota zeta. rewrite set_ok by assumption. cbv beta iota.
  rewrite !Hv, Hc, Hd, Hm.
  eexists. split; [reflexivity|].
  cbn [Uni.recent_values Uni.correction Uni.correction_delta
       Uni.correction_modulus Uni.current_index Uni.second_index].
  split; [|split; [reflexivity|split; [reflexivity|split; [reflexivity|]]]].
  - intro i. destruct (Nat.eqb i (Uni.current_index g)); [reflexivity|apply Hv].
  - split; apply step_index_lt; assumption.
Qed.

Lemma draws_zero (n : nat) :
  forall g,
  (forall i, Uni.recent_values g i = F32.zero) ->
  Uni.correction g = F32.zero -> Uni.correction_delta g = F32.zero ->
  Uni.correction_modulus g = F32.zero ->
  (Uni.current_index g < 98)%nat -> (Uni.second_index g < 98)%nat ->
  Uni.draws n g = Some (repeat F32.zero n).
Proof.
  induction n as [|n IH]; intros g Hv Hc Hd Hm Hcur Hsec; [reflexivity|].
  destruct (generate_zero g Hv Hc Hd Hm Hcur Hsec)
    as (g' & Hg & Hv' & Hc' & Hd' & Hm' & Hcur' & Hsec').
  cbn [Uni.draws]. rewrite Hg.
  rewrite (IH g' Hv' Hc' Hd' Hm' Hcur' Hsec'). reflexivity.
Qed.

(** Extra X15.  A generator made by [new()] and never initialised does not
    panic: every [generate] call returns [0.0]. *)
Theorem uninitialised_draws_zero (n : nat) :
  Uni.draws n Uni.new = Some (repeat F32.zero n).
Proof.
  apply draws_zero; intros; reflexivity || (cbn; lia).
Qed.

Lemma wrap_i32_small (z : Z) : Uni.in_i32 z -> Uni.wrap_i32 z = z.
Proof.
  unfold Uni.in_i32, Uni.wrap_i32. intro H.
  rewrite Z.mod_small by lia. lia.
Qed.

(** Extra X16.  A round of [start] whose seeds lie in the bands
    [i], [j], [k] in [0, 178] and [l] in [0, 168] (which contain the
    sub-seeds [initialise] passes) overflows in no [i32] multiplication or
    addition, so it computes the exact values in
    debug and release builds alike, and its new seeds are again in the
    bands: every round of [start] called from [initialise] is exact and
    does not panic. *)
Theorem start_round_no_overflow (q : Uni.seeds) (s t : F32.t) :
  seed_bands q ->
  let m := Z.rem (Z.rem (Uni.si q * Uni.sj q) 179 * Uni.sk q) 179 in
  let l := Z.rem (53 * Uni.sl q + 1) 169 in
  Uni.in_i32 (Uni.si q * Uni.sj q) /\
  Uni.in_i32 (Z.rem (Uni.si q * Uni.sj q) 179 * Uni.sk q) /\
  Uni.in_i32 (53 * Uni.sl q) /\ Uni.in_i32 (53 * Uni.sl q + 1) /\
  Uni.in_i32 (l * m) /\
  Uni.start_round (q, s, t) =
    (Uni.Seeds (Uni.sj q) (Uni.sk q) m l,
     (if Z.leb 32 (Z.rem (l * m) 64) then F32.add s t else s),
     F32.mul t F32.half) /\
  seed_bands (Uni.Seeds (Uni.sj q) (Uni.sk q) m l).
Proof.
  intros (Hi & Hj & Hk & Hl). cbv zeta.
  assert (H1 : 0 <= Uni.si q * Uni.sj q <= 178 * 178) by nia.
  assert (H2 : 0 <= Z.rem (Uni.si q * Uni.sj q) 179 < 179)
    by (apply Z.rem_bound_pos; lia).
  assert (H3 : 0 <= Z.rem (Uni.si q * Uni.sj q) 179 * Uni.sk q <= 178 * 178)
    by nia.
  assert (H4 : 0 <= Z.rem (Z.rem (Uni.si q * Uni.sj q) 179 * Uni.sk q) 179 < 179)
    by (apply Z.rem_bound_pos; lia).
  assert (H5 : 0 <= Z.rem (53 * Uni.sl q + 1) 169 < 169)
    by (apply Z.rem_bound_pos; lia).
  assert (H6 : 0 <= Z.rem (53 * Uni.sl q + 1) 169 *
                    Z.rem (Z.rem (Uni.si q * Uni.sj q) 179 * Uni.sk q) 179
               <= 168 * 178) by nia.
  unfold Uni.in_i32.
  split; [lia|]. split; [lia|]. split; [lia|]. split; [lia|]. split; [lia|].
  split.
  - unfold Uni.start_round.
    rewrite (wrap_i32_small (Uni.si q * Uni.sj q)) by (unfold Uni.in_i32; lia).
    rewrite (wrap_i32_small (Z.rem (Uni.si q * Uni.sj q) 179 * Uni.sk q))
      by (unfold Uni.in_i32; lia).
    rewrite (wrap_i32_small (53 * Uni.sl q)) by (unfold Uni.in_i32; lia).
    rewrite (wrap_i32_small (53 * Uni.sl q + 1)) by (unfold Uni.in_i32; lia).
    rewrite (wrap_i32_small (Z.rem (53 * Uni.sl q + 1) 169 *
               Z.rem (Z.rem (Uni.si q * Uni.sj q) 179 * Uni.sk q) 179))
      by (unfold Uni.in_i32; lia).
    reflexivity.
  - unfold seed_bands. cbn [Uni.si Uni.sj Uni.sk Uni.sl]. lia.
Qed.

Lemma start_round_no_overflow_witness :
  seed_bands (Uni.Seeds 2 3 4 5) /\
  let q := Uni.Seeds 2 3 4 5 in
  let m := Z.rem (Z.rem (Uni.si q * Uni.sj q) 179 * Uni.sk q) 179 in
  let l := Z.rem (53 * Uni.sl q + 1) 169 in
  Uni.in_i32 (Uni.si q * Uni.sj q) /\
  Uni.in_i32 (Z.rem (Uni.si q * Uni.sj q) 179 * Uni.sk q) /\
  Uni.in_i32 (53 * Uni.sl q) /\ Uni.in_i32 (53 * Uni.sl q + 1) /\
  Uni.in_i32 (l * m) /\
  Uni.start_round (q, F32.zero, F32.half) =
    (Uni.Seeds (Uni.sj q) (Uni.sk q) m l,
     (if Z.leb 32 (Z.rem (l * m) 64) then F32.add F32.zero F32.half else F32.zero),
     F32.mul F32.half F32.half) /\
  seed_bands (Uni.Seeds (Uni.sj q) (Uni.sk q) m l).
Proof.
  assert (Hb : seed_bands (Uni.Seeds 2 3 4 5))
    by (unfold seed_bands; cbn [Uni.si Uni.sj Uni.sk Uni.sl]; lia).
  split; [exact Hb|].
  exact (start_round_no_overflow (Uni.Seeds 2 3 4 5) F32.zero F32.half Hb).
Defined.

End Extras.
